(** * Reminder notification scheduler of the medical tracking frontend

    A shallow embedding of the reminder alerting code of the dashboard
    script: [initAudioContext], [playNotificationSound], [sendNotification],
    [requestNotificationPermission], [checkReminders], [loadReminders] and
    [deleteReminder].

    Conventions.
    - Times are epoch milliseconds in [Z]; [new Date(s) - now] is a
      subtraction in [Z], or NaN (modelled by [None]) when [s] does not parse.
    - The [Set] [hasPlayedSound] is a [gset string]; its keys are built as the
      template literals build them, from the decimal rendering of the id.
    - Calls into the browser are recorded in a log.  Every entry the
      scheduler's callback emits is labelled with the id of the reminder being
      visited and with the branch that emitted it. *)

From Stdlib Require Import ZArith QArith Lia Ascii String.
From stdpp Require Import gmap strings pretty list.

Local Open Scope Z_scope.

(** ** Completions: straight-line browser calls under try/catch *)

Module Js.

Inductive completion (A : Type) : Type :=
| Normal (a : A)
| Thrown.
Arguments Normal {A} a.
Arguments Thrown {A}.

(** A computation over a log of calls of type [C]: the calls it attempted, in
    order, and how it completed. *)
Definition M (C A : Type) : Type := (list C * completion A)%type.

Definition ret {C A} (a : A) : M C A := ([], Normal a).
Definition throw {C A} : M C A := ([], Thrown).

Definition bind {C A B} (m : M C A) (k : A -> M C B) : M C B :=
  match m with
  | (l, Normal a) => let '(l', c) := k a in (l ++ l', c)
  | (l, Thrown) => (l, Thrown)
  end.

(** [try { m } catch (e) { h }] *)
Definition try_catch {C A} (m : M C A) (h : M C A) : M C A :=
  match m with
  | (l, Normal a) => (l, Normal a)
  | (l, Thrown) => let '(l', c) := h in (l ++ l', c)
  end.

Definition calls {C A} (m : M C A) : list C := fst m.
Definition outcome {C A} (m : M C A) : completion A := snd m.

Definition throws {C A} (m : M C A) : bool :=
  match outcome m with Thrown => true | Normal _ => false end.

End Js.

Import Js.

Notation "m ;;; k" := (bind m (fun _ => k))
  (at level 90, right associativity).

(** ** Audio *)

(** The browser calls the sound code performs.  Frequencies are in hundredths
    of a hertz and times in milliseconds after [audioContext.currentTime]. *)
Inductive AudioCall : Type :=
| NewAudioContext                       (* new (window.AudioContext || window.webkitAudioContext)() *)
| Resume                                (* audioContext.resume() *)
| CreateOscillator
| CreateGain
| Connect
| FrequencyValue (centihertz : Z)       (* oscillator.frequency.value = .. *)
| OscillatorType (shape : string)       (* oscillator.type = .. *)
| FrequencySetValueAtTime (centihertz after : Z)
| GainSetValueAtTime (after : Z)
| GainExponentialRamp (after : Z)
| OscillatorStart (after : Z)
| OscillatorStop (after : Z)
| SetTimeout (delay : Z)
| NewAudio                              (* new Audio('data:audio/wav;base64,...') *)
| AudioPlay                             (* audio.play().catch(..) *)
| ConsoleLog (message : string)
| ConsoleError (message : string).

Global Instance AudioCall_eq_dec : EqDecision AudioCall.
Proof. solve_decision. Defined.

(** The value of the global [audioContext] once it is set. *)
Record AudioContext : Type := { suspended : bool }.

(** [Notification.permission] *)
Inductive Permission : Type := Default | Granted | Denied.

Global Instance Permission_eq_dec : EqDecision Permission.
Proof. solve_decision. Defined.

(** What the browser does on the calls of one task: which audio calls throw
    ([audio_throws n c]: the call [c] throws when it is the call number [n]
    of the block being run), the notification capability, and whether the
    acknowledgement request of a reminder is fulfilled. *)
Record Browser : Type := {
  audio_throws : nat -> AudioCall -> bool;
  fresh_context : AudioContext;         (* the context a successful constructor returns *)
  notification_supported : bool;        (* "Notification" in window *)
  permission : Permission;              (* Notification.permission *)
  notify_fulfilled : Z -> bool          (* fetch(`.../reminders/${id}/notify`) resolves *)
}.

Section Audio.

Variable b : Browser.

(** One browser call, number [n] of its block: it is logged, and throws when
    the browser says so. *)
Definition call (n : nat) (c : AudioCall) : M AudioCall unit :=
  ([c], if audio_throws b n c then Thrown else Normal tt).

(** [console.log] and [console.error] do not throw. *)
Definition console (c : AudioCall) : M AudioCall unit := ([c], Normal tt).

(** A block of calls, one after the other, numbered from [n]. *)
Fixpoint block (n : nat) (cs : list AudioCall) : M AudioCall unit :=
  match cs with
  | [] => ret tt
  | c :: cs => call n c ;;; block (S n) cs
  end.

(** [initAudioContext]: the assignment happens only if the constructor
    returns. *)
Definition initAudioContext (audioContext : option AudioContext)
  : option AudioContext * list AudioCall :=
  if audio_throws b 0 NewAudioContext
  then (audioContext, [NewAudioContext; ConsoleLog "Web Audio API not supported"])
  else (Some (fresh_context b), [NewAudioContext; ConsoleLog "Audio context initialized"]).

(** The calls of the try block after the two nodes are wired. *)
Definition urgent_calls : list AudioCall :=
  [ FrequencyValue 80000; GainSetValueAtTime 0; OscillatorStart 0;
    GainExponentialRamp 100; OscillatorStop 100; SetTimeout 200 ].

Definition chime_calls : list AudioCall :=
  [ OscillatorType "sine";
    FrequencySetValueAtTime 52325 0;
    FrequencySetValueAtTime 65925 100;
    FrequencySetValueAtTime 78399 200;
    GainSetValueAtTime 0; GainExponentialRamp 500;
    OscillatorStart 0; OscillatorStop 500 ].

(** The second beep, run by the timer 200 ms later, outside the try block
    and outside the call of [playNotificationSound]. *)
Definition second_beep_calls : list AudioCall :=
  [ CreateOscillator; CreateGain; Connect; Connect; FrequencyValue 80000;
    GainSetValueAtTime 0; OscillatorStart 0; GainExponentialRamp 100;
    OscillatorStop 100 ].

(** The try block.  With [audioContext] undefined the first property access
    throws before any call is made. *)
Definition synthesize (audioContext : option AudioContext) (type : string)
  : M AudioCall unit :=
  match audioContext with
  | None => throw
  | Some _ =>
      block 0 [CreateOscillator; CreateGain; Connect; Connect] ;;;
      if String.eqb type "urgent" then block 4 urgent_calls
      else block 4 chime_calls
  end.

(** The catch block: the pre-encoded sample. *)
Definition fallback : M AudioCall unit :=
  console (ConsoleError "Error playing sound:") ;;;
  try_catch
    (call 0 NewAudio ;;; call 1 AudioPlay)
    (console (ConsoleLog "All sound playback methods failed")).

(** [playNotificationSound(type)]: the new value of the global
    [audioContext], with the calls made and the completion. *)
Definition playNotificationSound (audioContext : option AudioContext)
    (type : string) : option AudioContext * M AudioCall unit :=
  let '(ctx, l0) :=
    match audioContext with
    | None => initAudioContext audioContext
    | Some _ => (audioContext, [])
    end in
  let l1 :=
    match ctx with
    | Some c => if suspended c then [Resume] else []
    | None => []
    end in
  (ctx,
   (l0 ++ l1, Normal tt) ;;;
   try_catch (synthesize ctx type) fallback).

End Audio.

(** ** Desktop notifications *)

Inductive NotifCall : Type :=
| ConsoleUnsupported                        (* console.log("This browser does not support ...") *)
| CreateNotification (title body : string)  (* new Notification(title, {body, ...}) *)
| RequestPermission (on_grant : option (string * string)).
                                            (* Notification.requestPermission().then(..) *)

Global Instance NotifCall_eq_dec : EqDecision NotifCall.
Proof. solve_decision. Defined.

Definition createNotification (title body : string) : list NotifCall :=
  [CreateNotification title body].

(** [sendNotification(title, body)] *)
Definition sendNotification (b : Browser) (title body : string) : list NotifCall :=
  if negb (notification_supported b) then [ConsoleUnsupported]
  else if bool_decide (permission b = Granted) then createNotification title body
  else if negb (bool_decide (permission b = Denied))
       then [RequestPermission (Some (title, body))]
       else [].

(** The [then] callback of a permission request, run when the user answers. *)
Definition permission_answered (on_grant : option (string * string))
    (answer : Permission) : list NotifCall :=
  match on_grant with
  | Some (title, body) =>
      if bool_decide (answer = Granted) then createNotification title body else []
  | None => []
  end.

(** [requestNotificationPermission()]: the request is issued by a timer
    3000 ms after the call. *)
Definition requestNotificationPermission (b : Browser) : list NotifCall :=
  if notification_supported b && bool_decide (permission b = Default)
  then [RequestPermission None]
  else [].

(** ** Reminders and the played-sound set *)

Record Reminder : Type := {
  id : Z;
  title : string;
  date_time : option Z;   (* new Date(reminder.date_time), [None] for an invalid date *)
  notes : option string;
  notified : bool
}.

Global Instance Reminder_eq_dec : EqDecision Reminder.
Proof. solve_decision. Defined.

Inductive Threshold : Type := PreAlert | DueAlert.

Global Instance Threshold_eq_dec : EqDecision Threshold.
Proof. solve_decision. Defined.

(** [`${id}-5min`] and [`${id}-now`] *)
Definition key (i : Z) (t : Threshold) : string :=
  match t with
  | PreAlert => pretty i +:+ "-5min"
  | DueAlert => pretty i +:+ "-now"
  end.

(** The globals of the script the scheduler reads and writes. *)
Record State : Type := {
  reminders : list Reminder;
  hasPlayedSound : gset string;
  audioContext : option AudioContext
}.

(** ** The log of the scheduler *)

Inductive Effect : Type :=
| PlayNotificationSound (type : string) (made : list AudioCall)
| SendNotification (title body : string) (made : list NotifCall)
| ShowToast (message : string)
| FetchNotify (i : Z) (fulfilled : bool).   (* PUT /reminders/${id}/notify *)

Global Instance Effect_eq_dec : EqDecision Effect.
Proof. solve_decision. Defined.

Record Entry : Type := {
  origin : Z;             (* id of the reminder the callback was visiting *)
  branch : Threshold;     (* the branch of the callback that emitted it *)
  effect : Effect
}.

Global Instance Entry_eq_dec : EqDecision Entry.
Proof. solve_decision. Defined.

(** ** checkReminders *)

(** Comparisons of a difference of dates with a constant: false on NaN. *)
Definition js_gt (d : option Z) (c : Z) : bool :=
  match d with Some x => c <? x | None => false end.
Definition js_le (d : option Z) (c : Z) : bool :=
  match d with Some x => x <=? c | None => false end.

Definition dquote : string := String "034"%char "".

Definition set_notified (r : Reminder) : Reminder :=
  {| id := id r; title := title r; date_time := date_time r;
     notes := notes r; notified := true |}.

Section Scheduler.

Variable b : Browser.
Variable now : Z.

(** The callback passed to [reminders.forEach]: the reminder after the
    visit, the two globals after the visit, and the entries logged.  The
    statements after [playNotificationSound(..)] always run, since that call
    returns (lemma [playNotificationSound_returns]); the notification, toast
    and fetch calls are taken not to throw. *)
Definition visit (played : gset string) (ctx : option AudioContext)
    (reminder : Reminder)
  : Reminder * gset string * option AudioContext * list Entry :=
  let timeDiff := (fun reminderTime => reminderTime - now) <$> date_time reminder in
  if js_gt timeDiff 0 && js_le timeDiff 300000 && negb (notified reminder)
     && negb (bool_decide (key (id reminder) PreAlert ∈ played))
  then
    let '(ctx', sound) := playNotificationSound b ctx "reminder" in
    (set_notified reminder,
     {[ key (id reminder) PreAlert ]} ∪ played,
     ctx',
     Build_Entry (id reminder) PreAlert <$>
       [ PlayNotificationSound "reminder" (calls sound);
         SendNotification (title reminder)
           ("Reminder in 5 minutes: " +:+ title reminder)
           (sendNotification b (title reminder)
              ("Reminder in 5 minutes: " +:+ title reminder));
         ShowToast ("⏰ Reminder: " +:+ dquote +:+ title reminder +:+ dquote
                    +:+ " in 5 minutes!");
         FetchNotify (id reminder) (notify_fulfilled b (id reminder)) ])
  else if js_gt timeDiff (-60000) && js_le timeDiff 0
          && negb (bool_decide (key (id reminder) DueAlert ∈ played))
  then
    let '(ctx', sound) := playNotificationSound b ctx "urgent" in
    (reminder,
     {[ key (id reminder) DueAlert ]} ∪ played,
     ctx',
     Build_Entry (id reminder) DueAlert <$>
       [ PlayNotificationSound "urgent" (calls sound);
         SendNotification (title reminder)
           ("It's time: " +:+ title reminder +:+ "!")
           (sendNotification b (title reminder)
              ("It's time: " +:+ title reminder +:+ "!"));
         ShowToast ("🔔 Time for: " +:+ dquote +:+ title reminder +:+ dquote +:+ "!");
         FetchNotify (id reminder) (notify_fulfilled b (id reminder)) ])
  else (reminder, played, ctx, []).

(** [reminders.forEach(callback)] *)
Fixpoint forEach (rs : list Reminder) (played : gset string)
    (ctx : option AudioContext)
  : list Reminder * gset string * option AudioContext * list Entry :=
  match rs with
  | [] => ([], played, ctx, [])
  | r :: rs =>
      let '(r', played1, ctx1, log1) := visit played ctx r in
      let '(rs', played2, ctx2, log2) := forEach rs played1 ctx1 in
      (r' :: rs', played2, ctx2, log1 ++ log2)
  end.

(** [checkReminders()], run at time [now]. *)
Definition checkReminders (st : State) : State * list Entry :=
  let '(rs, played, ctx, log) :=
    forEach (reminders st) (hasPlayedSound st) (audioContext st) in
  ({| reminders := rs; hasPlayedSound := played; audioContext := ctx |}, log).

End Scheduler.

(** ** loadReminders and deleteReminder *)

Inductive Response (A : Type) : Type :=
| Failed              (* fetch rejected, or the body did not parse *)
| NotOk               (* response.ok is false *)
| Ok (body : A).
Arguments Failed {A}.
Arguments NotOk {A}.
Arguments Ok {A} body.

(** [loadReminders()]: the cache is replaced only when the request succeeds;
    any failure is caught and leaves it as it was. *)
Definition loadReminders (resp : Response (list Reminder)) (st : State) : State :=
  match resp with
  | Ok rs => {| reminders := rs; hasPlayedSound := hasPlayedSound st;
                audioContext := audioContext st |}
  | _ => st
  end.

(** The two [hasPlayedSound.delete] calls of [deleteReminder]. *)
Definition clearKeys (i : Z) (st : State) : State :=
  {| reminders := reminders st;
     hasPlayedSound := hasPlayedSound st ∖ {[ key i PreAlert ]} ∖ {[ key i DueAlert ]};
     audioContext := audioContext st |}.

(** [deleteReminder(id)], with the answer to [confirm] and the two responses. *)
Definition deleteReminder (confirmed : bool) (deleted : Response unit)
    (reload : Response (list Reminder)) (i : Z) (st : State) : State :=
  if negb confirmed then st
  else match deleted with
       | Ok _ => loadReminders reload (clearKeys i st)
       | _ => st
       end.

(** ** Sessions *)

(** The tasks of the event loop that touch the scheduler's globals.  The two
    halves of a deletion are separate tasks: a timer tick can run between the
    continuation that clears the keys and the one that stores the reloaded
    list. *)
Inductive Task : Type :=
| Tick (b : Browser) (now : Z)
| Reload (resp : Response (list Reminder))
| ClearKeys (i : Z).

Definition step (t : Task) (st : State) : State * list Entry :=
  match t with
  | Tick b now => checkReminders b now st
  | Reload resp => (loadReminders resp st, [])
  | ClearKeys i => (clearKeys i st, [])
  end.

Fixpoint run (ts : list Task) (st : State) : State * list Entry :=
  match ts with
  | [] => (st, [])
  | t :: ts =>
      let '(st1, log1) := step t st in
      let '(st2, log2) := run ts st1 in
      (st2, log1 ++ log2)
  end.

(** The tasks of a confirmed deletion whose DELETE request succeeded. *)
Definition deletion_tasks (i : Z) (reload : Response (list Reminder)) : list Task :=
  [ClearKeys i; Reload reload].

(** ** Reading the log *)

Definition is_sound (e : Effect) : bool :=
  match e with PlayNotificationSound _ _ => true | _ => false end.

Definition is_ack (e : Effect) : bool :=
  match e with FetchNotify _ _ => true | _ => false end.

(** The entries a given branch emitted for a given reminder id. *)
Definition entries_for (i : Z) (t : Threshold) (log : list Entry) : list Entry :=
  filter (fun e => origin e = i ∧ branch e = t) log.

(** How many times the alert of key [(i, t)] was dispatched. *)
Definition dispatch_count (i : Z) (t : Threshold) (log : list Entry) : nat :=
  length (filter (fun e => is_sound (effect e) = true) (entries_for i t log)).

(** How many acknowledgement requests the branch [t] sent for [i]. *)
Definition ack_count (i : Z) (t : Threshold) (log : list Entry) : nat :=
  length (filter (fun e => is_ack (effect e) = true) (entries_for i t log)).

(** ** Start-up *)

(** The end of [initializeApp], after the data is loaded:
    [checkReminders(); requestNotificationPermission(); initAudioContext();].
    Returns the state, the log of the first check, the notification calls of
    the prompt and the audio calls of the initialisation. *)
Definition initializeApp (b : Browser) (now : Z) (st : State)
  : State * list Entry * list NotifCall * list AudioCall :=
  let '(st1, log) := checkReminders b now st in
  let prompt := requestNotificationPermission b in
  let '(ctx, made) := initAudioContext b (audioContext st1) in
  ({| reminders := reminders st1; hasPlayedSound := hasPlayedSound st1;
      audioContext := ctx |}, log, prompt, made).

(** ** Reading the behaviour *)

(** The effects of the two alerts, given the audio calls the sound made. *)
Definition pre_alert_effects (b : Browser) (r : Reminder) (made : list AudioCall)
  : list Effect :=
  [ PlayNotificationSound "reminder" made;
    SendNotification (title r) ("Reminder in 5 minutes: " +:+ title r)
      (sendNotification b (title r) ("Reminder in 5 minutes: " +:+ title r));
    ShowToast ("⏰ Reminder: " +:+ dquote +:+ title r +:+ dquote +:+ " in 5 minutes!");
    FetchNotify (id r) (notify_fulfilled b (id r)) ].

Definition due_alert_effects (b : Browser) (r : Reminder) (made : list AudioCall)
  : list Effect :=
  [ PlayNotificationSound "urgent" made;
    SendNotification (title r) ("It's time: " +:+ title r +:+ "!")
      (sendNotification b (title r) ("It's time: " +:+ title r +:+ "!"));
    ShowToast ("🔔 Time for: " +:+ dquote +:+ title r +:+ dquote +:+ "!");
    FetchNotify (id r) (notify_fulfilled b (id r)) ].

Definition alert_effects (t : Threshold) :=
  match t with PreAlert => pre_alert_effects | DueAlert => due_alert_effects end.

Definition sound_of (t : Threshold) : string :=
  match t with PreAlert => "reminder" | DueAlert => "urgent" end.

(** The two tests on [timeDiff], read as intervals of [now]. *)
Definition in_pre_test (now : Z) (r : Reminder) : bool :=
  let timeDiff := (fun reminderTime => reminderTime - now) <$> date_time r in
  js_gt timeDiff 0 && js_le timeDiff 300000.

Definition in_due_test (now : Z) (r : Reminder) : bool :=
  let timeDiff := (fun reminderTime => reminderTime - now) <$> date_time r in
  js_gt timeDiff (-60000) && js_le timeDiff 0.

(** Which branch a visit takes. *)
Definition taken (now : Z) (played : gset string) (r : Reminder) : option Threshold :=
  if in_pre_test now r && negb (notified r)
     && negb (bool_decide (key (id r) PreAlert ∈ played))
  then Some PreAlert
  else if in_due_test now r && negb (bool_decide (key (id r) DueAlert ∈ played))
  then Some DueAlert
  else None.

Definition after_visit (t : Threshold) (r : Reminder) : Reminder :=
  match t with PreAlert => set_notified r | DueAlert => r end.

(** 1 when the key of [(i, t)] is in the set, else 0. *)
Definition marked (i : Z) (t : Threshold) (played : gset string) : nat :=
  if bool_decide (key i t ∈ played) then 1%nat else 0%nat.

(** The tick dispatched the alert [t] of reminder [r]: the entries logged for
    its key are the four effects of that alert, in order. *)
Definition dispatches (b : Browser) (r : Reminder) (t : Threshold)
    (log : list Entry) : Prop :=
  ∃ made, effect <$> entries_for (id r) t log = alert_effects t b r made.

(** Every reload that succeeds keeps the reminders of id [i] notified. *)
Definition reloads_notified (i : Z) (ts : list Task) : Prop :=
  ∀ rs r, Reload (Ok rs) ∈ ts → r ∈ rs → id r = i → notified r = true.

(** No reload that succeeds returns a reminder of id [i]. *)
Definition never_returned (i : Z) (ts : list Task) : Prop :=
  ∀ rs, Reload (Ok rs) ∈ ts → i ∉ id <$> rs.

(** The notification calls recorded in a log, in order. *)
Definition notif_made (e : Entry) : list NotifCall :=
  match effect e with SendNotification _ _ made => made | _ => [] end.

Definition notification_calls (log : list Entry) : list NotifCall :=
  flat_map notif_made log.

Definition is_request (c : NotifCall) : bool :=
  match c with RequestPermission _ => true | _ => false end.

(** A call into the notification API proper (not the console). *)
Definition is_api_call (c : NotifCall) : bool :=
  match c with ConsoleUnsupported => false | _ => true end.

Definition request_count (log : list Entry) : nat :=
  length (filter (fun c => is_request c = true) (notification_calls log)).

Definition api_calls (log : list Entry) : list NotifCall :=
  filter (fun c => is_api_call c = true) (notification_calls log).

(** How many alerts a log holds, whatever their key. *)
Definition alert_count (log : list Entry) : nat :=
  length (filter (fun e => is_sound (effect e) = true) log).

(** Every tick of the session runs in a browser that satisfies [P]. *)
Definition every_tick (P : Browser → Prop) (ts : list Task) : Prop :=
  ∀ b now, Tick b now ∈ ts → P b.

(** ** Sample inputs *)

(** A browser in which no call throws and every request is fulfilled. *)
Definition browser (p : Permission) : Browser :=
  {| audio_throws := fun _ _ => false;
     fresh_context := {| suspended := false |};
     notification_supported := true;
     permission := p;
     notify_fulfilled := fun _ => true |}.

(** A reminder due at 300000 ms, and a second one due at the same time. *)
Definition pill : Reminder :=
  {| id := 1; title := "pill"; date_time := Some 300000; notes := None;
     notified := false |}.

Definition walk : Reminder :=
  {| id := 2; title := "walk"; date_time := Some 300000; notes := None;
     notified := false |}.

Definition initial (rs : list Reminder) : State :=
  {| reminders := rs; hasPlayedSound := ∅; audioContext := None |}.

(** ** Sessions of timer ticks *)

(** The tasks of a session in which only the timer runs: one tick per pair of
    a browser behaviour and a clock reading. *)
Definition ticks (sess : list (Browser * Z)) : list Task :=
  (fun p => Tick p.1 p.2) <$> sess.

(** The test on [timeDiff] that guards branch [t]. *)
Definition in_test (t : Threshold) (now : Z) (r : Reminder) : bool :=
  match t with
  | PreAlert => in_pre_test now r
  | DueAlert => in_due_test now r
  end.

(** What branch [t] needs besides its test on [timeDiff]: its key absent
    from the set and, for the PreAlert, the [notified] flag unset. *)
Definition ready (t : Threshold) (played : gset string) (r : Reminder) : Prop :=
  (key (id r) t ∉ played) ∧ (t = PreAlert → notified r = false).

Definition is_create (c : NotifCall) : bool :=
  match c with CreateNotification _ _ => true | _ => false end.

Definition create_count (log : list Entry) : nat :=
  length (filter (fun c => is_create c = true) (notification_calls log)).

(** The audio calls recorded in a log, in order. *)
Definition sound_made (e : Entry) : list AudioCall :=
  match effect e with PlayNotificationSound _ made => made | _ => [] end.

Definition audio_calls (log : list Entry) : list AudioCall :=
  flat_map sound_made log.

(** The reminder as the tick leaves it in the cache. *)
Definition visited (now : Z) (played : gset string) (r : Reminder) : Reminder :=
  match taken now played r with
  | Some t => after_visit t r
  | None => r
  end.

(** ** escapeHtml *)

(** [s.replace(/c/g, by)] for a pattern of one ASCII character and a
    replacement without [$].  Strings are sequences of UTF-8 bytes; the bytes
    of a longer sequence are never ASCII, so they are never touched. *)
Fixpoint replace_all (c : ascii) (replacement : string) (s : string) : string :=
  match s with
  | EmptyString => EmptyString
  | String a s' =>
      if Ascii.eqb a c then replacement +:+ replace_all c replacement s'
      else String a (replace_all c replacement s')
  end.

(** [escapeHtml(unsafe)] on a string: the empty string is the only falsy
    string, and [toString] is the identity. *)
Definition escapeHtml (unsafe : string) : string :=
  if String.eqb unsafe "" then ""
  else
    replace_all "'" "&#039;"
      (replace_all "034" "&quot;"
         (replace_all ">" "&gt;"
            (replace_all "<" "&lt;"
               (replace_all "&" "&amp;" unsafe)))).

(** What one character becomes when each character is escaped on its own. *)
Definition escape_char (a : ascii) : string :=
  if Ascii.eqb a "&" then "&amp;"
  else if Ascii.eqb a "<" then "&lt;"
  else if Ascii.eqb a ">" then "&gt;"
  else if Ascii.eqb a "034" then "&quot;"
  else if Ascii.eqb a "'" then "&#039;"
  else String a "".

Fixpoint map_chars (f : ascii -> string) (s : string) : string :=
  match s with
  | EmptyString => EmptyString
  | String a s' => f a +:+ map_chars f s'
  end.

(** The characters that open or close a tag or an attribute value. *)
Definition is_markup (a : ascii) : bool :=
  Ascii.eqb a "<" || Ascii.eqb a ">" || Ascii.eqb a "034" || Ascii.eqb a "'".

(** ** Vital signs *)

(** [\d] *)
Definition is_digit (a : ascii) : bool :=
  (48 <=? N_of_ascii a)%N && (N_of_ascii a <=? 57)%N.

Definition all_digits (s : string) : bool :=
  forallb is_digit (list_ascii_of_string s).

(** The longest prefix of digits of a string, and what follows it. *)
Fixpoint digits_prefix (s : string) : string * string :=
  match s with
  | EmptyString => (EmptyString, EmptyString)
  | String a s' =>
      if is_digit a
      then let '(d, rest) := digits_prefix s' in (String a d, rest)
      else (EmptyString, s)
  end.

(** [isValidBloodPressure(bp)]: [/^\d{2,3}\/\d{2,3}$/.test(bp)].  A slash is
    not a digit, so the first group is the whole run of digits that opens the
    string, and the second the whole run after the slash. *)
Definition isValidBloodPressure (bp : string) : bool :=
  let '(d1, rest) := digits_prefix bp in
  (2 <=? String.length d1)%nat && (String.length d1 <=? 3)%nat &&
  match rest with
  | String a rest' =>
      Ascii.eqb a "/" &&
      (let '(d2, tail) := digits_prefix rest' in
       (2 <=? String.length d2)%nat && (String.length d2 <=? 3)%nat &&
       String.eqb tail "")
  | EmptyString => false
  end.

(** [s.split(sep)] for a separator of one character. *)
Fixpoint js_split (sep : ascii) (s : string) : list string :=
  match s with
  | EmptyString => [EmptyString]
  | String a s' =>
      if Ascii.eqb a sep then EmptyString :: js_split sep s'
      else match js_split sep s' with
           | h :: t => String a h :: t
           | [] => [String a EmptyString]
           end
  end.

(** A JavaScript number: NaN, an infinity or a finite value. *)
Inductive Num : Type := NaN | NegInfinity | Finite (q : Q) | PosInfinity.

(** [x < c] and [x > c] for a finite constant [c]: false on NaN. *)
Definition num_lt (x : Num) (c : Q) : bool :=
  match x with
  | NaN | PosInfinity => false
  | NegInfinity => true
  | Finite q => negb (Qle_bool c q)
  end.

Definition num_gt (x : Num) (c : Q) : bool :=
  match x with
  | NaN | NegInfinity => false
  | PosInfinity => true
  | Finite q => negb (Qle_bool q c)
  end.

(** The value of a string of decimal digits. *)
Definition digit_value (a : ascii) : Z := Z.of_N (N_of_ascii a) - 48.

Fixpoint decimal_from (acc : Z) (s : string) : Z :=
  match s with
  | EmptyString => acc
  | String a s' => decimal_from (10 * acc + digit_value a) s'
  end.

Definition decimal (s : string) : Z := decimal_from 0 s.

Section Vitals.

(** The built-in [Number], applied to strings. *)
Variable Number : string -> Num.

(** [getBpStatus(bp)]: a part that is missing from the array is [undefined],
    which compares as NaN. *)
Definition getBpStatus (bp : string) : string :=
  let parts := Number <$> js_split "/" bp in
  let systolic := default NaN (parts !! 0%nat) in
  let diastolic := default NaN (parts !! 1%nat) in
  if num_lt systolic (90 # 1) || num_lt diastolic (60 # 1) then "low"
  else if num_gt systolic (140 # 1) || num_gt diastolic (90 # 1) then "high"
  else "normal".

End Vitals.

(** What [Number] does on a non-empty string of digits. *)
Definition reads_decimals (Number : string -> Num) : Prop :=
  ∀ d, d ≠ "" → all_digits d = true → Number d = Finite (inject_Z (decimal d)).

(** A stand-in for [Number] in examples: zero on the empty string, the
    decimal value of a string of digits, NaN on anything else. *)
Definition Number_of_digits (s : string) : Num :=
  if all_digits s then Finite (inject_Z (decimal s)) else NaN.

(** ** formatTime *)

(** A stand-in for [parseInt] in examples: the decimal value of a non-empty
    string of digits, NaN on anything else. *)
Definition parseInt_of_digits (s : string) : option Z :=
  if negb (String.eqb s "") && all_digits s then Some (decimal s) else None.

Section Times.

(** The built-in [parseInt] on a string: an integer, or NaN ([None]).
    Integers are exact here, as they are in the script up to 2^53. *)
Variable parseInt : string -> option Z.

(** [formatTime(timeString)] on a string.  [hour % 12] has the sign of
    [hour]; a missing second part prints as [undefined]. *)
Definition formatTime (timeString : string) : string :=
  let parts := js_split ":" timeString in
  let hours := default "" (parts !! 0%nat) in
  let minutes := default "undefined" (parts !! 1%nat) in
  match parseInt hours with
  | Some hour =>
      let ampm := if 12 <=? hour then "PM" else "AM" in
      let displayHour := if Z.rem hour 12 =? 0 then 12 else Z.rem hour 12 in
      pretty displayHour +:+ ":" +:+ minutes +:+ " " +:+ ampm
  | None => "12:" +:+ minutes +:+ " AM"
  end.

End Times.

(** ** addReminder *)

(** What [addReminder] shows and sends. *)
Inductive Ui : Type :=
| Toast (message kind : string)
| PostReminder (title date_time : string) (notes : option string)
                                        (* POST /reminders *)
| ClearReminderForm.

(** How the POST request ends: the fetch is rejected with a message, the
    response is not ok and its body holds or lacks an [error], or it is ok. *)
Inductive Posted : Type :=
| PostFailed (message : string)
| PostNotOk (error : option string)
| PostOk.

(** [x || fallback] on a string that may be missing. *)
Definition or_else (x : option string) (fallback : string) : string :=
  match x with
  | Some s => if String.eqb s "" then fallback else s
  | None => fallback
  end.

(** The toast of [loadReminders] when it fails. *)
Definition loadReminders_toasts (resp : Response (list Reminder)) : list Ui :=
  match resp with
  | Ok _ => []
  | _ => [Toast "Failed to load reminders" "error"]
  end.

Section Forms.

(** [new Date(s)] as epoch milliseconds, [None] for an invalid date. *)
Variable DateOf : string -> option Z.

(** [addReminder()], given the three fields as read from the form (title and
    notes already trimmed), the clock, and how the two requests end. *)
Definition addReminder (title dateTime notes : string) (now : Z)
    (posted : Posted) (reload : Response (list Reminder)) (st : State)
  : State * list Ui :=
  if String.eqb title "" || String.eqb dateTime ""
  then (st, [Toast "Please fill in title and date/time" "warning"])
  else if js_le (DateOf dateTime) now
  then (st, [Toast "Please select a future date and time" "warning"])
  else
    let request :=
      PostReminder title dateTime
        (if String.eqb notes "" then None else Some notes) in
    match posted with
    | PostFailed message =>
        (st, [request; Toast ("Failed to add reminder: " +:+ message) "error"])
    | PostNotOk error =>
        (st, [request;
              Toast ("Failed to add reminder: "
                     +:+ or_else error "Failed to add reminder") "error"])
    | PostOk =>
        (loadReminders reload st,
         [request; ClearReminderForm] ++ loadReminders_toasts reload
         ++ [Toast "Reminder set successfully! ⏰" "success"])
    end.

End Forms.

Definition is_post (u : Ui) : bool :=
  match u with PostReminder _ _ _ => true | _ => false end.

(** Closes [x ∉ [a; b; ...]] when [x] differs from every element by its
    constructor. *)
Ltac not_listed :=
  let H := fresh "H" in
  intros H;
  repeat (apply elem_of_cons in H as [H|H]; [discriminate H|]);
  by apply not_elem_of_nil in H.

(** * Properties *)

(** ** Keys *)

Lemma list_ascii_of_string_app (s t : string) :
  list_ascii_of_string (s +:+ t) = list_ascii_of_string s ++ list_ascii_of_string t.
Proof. induction s as [|a s IH]; simpl; [done | by rewrite IH]. Qed.

Lemma list_ascii_of_string_inj (s t : string) :
  list_ascii_of_string s = list_ascii_of_string t → s = t.
Proof.
  intros H. rewrite <- (string_of_list_ascii_of_string s),
    <- (string_of_list_ascii_of_string t). by rewrite H.
Qed.

(** The key determines the id and the threshold. *)
Lemma key_inj (i j : Z) (t u : Threshold) : key i t = key j u → i = j ∧ t = u.
Proof.
  intros H. apply (f_equal list_ascii_of_string) in H.
  destruct t, u; unfold key in H; rewrite !list_ascii_of_string_app in H.
  - apply app_inv_tail in H. apply list_ascii_of_string_inj in H.
    split; [by apply (inj pretty) | done].
  - exfalso.
    change (list_ascii_of_string "-5min")
      with (list_ascii_of_string "-5mi" ++ ["n"%char]) in H.
    change (list_ascii_of_string "-now")
      with (list_ascii_of_string "-no" ++ ["w"%char]) in H.
    rewrite !app_assoc in H. apply app_inj_tail in H as [_ H]. discriminate H.
  - exfalso.
    change (list_ascii_of_string "-5min")
      with (list_ascii_of_string "-5mi" ++ ["n"%char]) in H.
    change (list_ascii_of_string "-now")
      with (list_ascii_of_string "-no" ++ ["w"%char]) in H.
    rewrite !app_assoc in H. apply app_inj_tail in H as [_ H]. discriminate H.
  - apply app_inv_tail in H. apply list_ascii_of_string_inj in H.
    split; [by apply (inj pretty) | done].
Qed.

Lemma key_ne (i j : Z) (t u : Threshold) : (i, t) ≠ (j, u) → key i t ≠ key j u.
Proof. intros Hne Heq. apply key_inj in Heq as [-> ->]. done. Qed.

(** ** Sound playback *)

Section AudioFacts.

Variable b : Browser.

Lemma block_calls_sublist (n : nat) (cs : list AudioCall) (c : AudioCall) :
  c ∈ calls (block b n cs) → c ∈ cs.
Proof.
  revert n. induction cs as [|c0 cs IH]; intros n; simpl; [done|].
  unfold call, bind. destruct (audio_throws b n c0); simpl.
  - intros ->%list_elem_of_singleton. left.
  - specialize (IH (S n)). destruct (block b (S n) cs) as [l o]. simpl in *.
    intros [->|Hin]%elem_of_cons; [left | right; auto].
Qed.

Lemma bind_calls_elem {A B} (m : M AudioCall A) (k : M AudioCall B) (c : AudioCall) :
  c ∈ calls (m ;;; k) → c ∈ calls m ∨ c ∈ calls k.
Proof.
  destruct m as [l [a|]], k as [l' o']; unfold bind, calls; cbn [fst].
  - intros Hin%elem_of_app. exact Hin.
  - by left.
Qed.

(** The try block never touches the sample. *)
Lemma synthesize_no_sample (ctx : option AudioContext) (type : string) :
  NewAudio ∉ calls (synthesize b ctx type).
Proof.
  unfold synthesize. destruct ctx as [c|]; [|by apply not_elem_of_nil].
  intros [Hin|Hin]%bind_calls_elem.
  - apply block_calls_sublist in Hin.
    repeat (apply elem_of_cons in Hin as [Hin|Hin]; [discriminate Hin|]).
    by apply not_elem_of_nil in Hin.
  - destruct (String.eqb type "urgent"); apply block_calls_sublist in Hin;
      unfold urgent_calls, chime_calls in Hin;
      repeat (apply elem_of_cons in Hin as [Hin|Hin]; [discriminate Hin|]);
      by apply not_elem_of_nil in Hin.
Qed.

(** The catch block completes, and builds the sample exactly once. *)
Lemma fallback_outcome : outcome (fallback b) = Normal tt.
Proof.
  unfold fallback, console, call, bind, try_catch.
  destruct (audio_throws b 0%nat NewAudio), (audio_throws b 1%nat AudioPlay);
    reflexivity.
Qed.

Lemma fallback_sample_once :
  length (filter (fun c => c = NewAudio) (calls (fallback b))) = 1%nat.
Proof.
  unfold fallback, console, call, bind, try_catch.
  destruct (audio_throws b 0%nat NewAudio), (audio_throws b 1%nat AudioPlay);
    reflexivity.
Qed.

Lemma filter_absent (c : AudioCall) (l : list AudioCall) :
  c ∉ l → filter (fun x => x = c) l = [].
Proof.
  induction l as [|x l IH]; [done|]. intros Hn.
  rewrite filter_cons. destruct (decide (x = c)) as [->|_].
  - exfalso. apply Hn. left.
  - apply IH. intros Hin. apply Hn. by right.
Qed.

(** [playNotificationSound] returns to its caller whatever the browser does. *)
Lemma playNotificationSound_returns (audioContext : option AudioContext)
    (type : string) :
  outcome (playNotificationSound b audioContext type).2 = Normal tt.
Proof.
  unfold playNotificationSound.
  destruct (match audioContext with
            | Some _ => (audioContext, [])
            | None => initAudioContext b audioContext
            end) as [ctx l0].
  simpl. unfold try_catch.
  destruct (synthesize b ctx type) as [l [[]|]]; [reflexivity|].
  pose proof fallback_outcome as Hf.
  destruct (fallback b) as [l' o']. simpl in *. by subst.
Qed.

End AudioFacts.

(** ** One visit of the callback *)

Lemma in_pre_test_spec (now : Z) (r : Reminder) (T : Z) :
  date_time r = Some T → in_pre_test now r = true ↔ T - 300000 ≤ now < T.
Proof.
  intros HT. unfold in_pre_test, js_gt, js_le. rewrite HT. simpl.
  rewrite andb_true_iff, Z.ltb_lt, Z.leb_le. lia.
Qed.

Lemma in_due_test_spec (now : Z) (r : Reminder) (T : Z) :
  date_time r = Some T → in_due_test now r = true ↔ T ≤ now < T + 60000.
Proof.
  intros HT. unfold in_due_test, js_gt, js_le. rewrite HT. simpl.
  rewrite andb_true_iff, Z.ltb_lt, Z.leb_le. lia.
Qed.

Lemma tests_exclusive (now : Z) (r : Reminder) :
  in_pre_test now r = true → in_due_test now r = false.
Proof.
  unfold in_pre_test, in_due_test, js_gt, js_le.
  destruct (date_time r) as [T|]; simpl; [|done].
  rewrite andb_true_iff, andb_false_iff, Z.ltb_lt, Z.leb_le, Z.ltb_ge, Z.leb_gt. lia.
Qed.

(** A visit, branch by branch. *)
Lemma visit_unfold (b : Browser) (now : Z) (played : gset string)
    (ctx : option AudioContext) (r : Reminder) :
  visit b now played ctx r =
    match taken now played r with
    | Some t =>
        (after_visit t r, {[ key (id r) t ]} ∪ played,
         (playNotificationSound b ctx (sound_of t)).1,
         Build_Entry (id r) t <$>
           alert_effects t b r (calls (playNotificationSound b ctx (sound_of t)).2))
    | None => (r, played, ctx, [])
    end.
Proof.
  unfold visit, taken, in_pre_test, in_due_test.
  destruct (js_gt _ 0 && js_le _ 300000 && negb (notified r)
            && negb (bool_decide (key (id r) PreAlert ∈ played))).
  - simpl. by destruct (playNotificationSound b ctx "reminder").
  - destruct (js_gt _ (-60000) && js_le _ 0
              && negb (bool_decide (key (id r) DueAlert ∈ played))).
    + simpl. by destruct (playNotificationSound b ctx "urgent").
    + done.
Qed.

Lemma entries_for_app (i : Z) (t : Threshold) (l1 l2 : list Entry) :
  entries_for i t (l1 ++ l2) = entries_for i t l1 ++ entries_for i t l2.
Proof. unfold entries_for. apply filter_app. Qed.

Lemma dispatch_count_app (i : Z) (t : Threshold) (l1 l2 : list Entry) :
  dispatch_count i t (l1 ++ l2) = (dispatch_count i t l1 + dispatch_count i t l2)%nat.
Proof. unfold dispatch_count. by rewrite entries_for_app, filter_app, length_app. Qed.

Lemma ack_count_app (i : Z) (t : Threshold) (l1 l2 : list Entry) :
  ack_count i t (l1 ++ l2) = (ack_count i t l1 + ack_count i t l2)%nat.
Proof. unfold ack_count. by rewrite entries_for_app, filter_app, length_app. Qed.

Lemma entries_for_labelled (i j : Z) (t u : Threshold) (es : list Effect) :
  entries_for i t (Build_Entry j u <$> es) =
    if decide (j = i ∧ u = t) then Build_Entry j u <$> es else [].
Proof.
  unfold entries_for. induction es as [|e es IH].
  - by destruct (decide _).
  - rewrite fmap_cons, filter_cons, IH. simpl. by destruct (decide (j = i ∧ u = t)).
Qed.

Lemma alert_sounds_once (t : Threshold) (b : Browser) (r : Reminder)
    (made : list AudioCall) (j : Z) (u : Threshold) :
  length (filter (fun e => is_sound (effect e) = true)
            (Build_Entry j u <$> alert_effects t b r made)) = 1%nat.
Proof. by destruct t. Qed.

Lemma alert_acks_once (t : Threshold) (b : Browser) (r : Reminder)
    (made : list AudioCall) (j : Z) (u : Threshold) :
  length (filter (fun e => is_ack (effect e) = true)
            (Build_Entry j u <$> alert_effects t b r made)) = 1%nat.
Proof. by destruct t. Qed.

Lemma taken_unmarked (now : Z) (played : gset string) (r : Reminder) (t : Threshold) :
  taken now played r = Some t → key (id r) t ∉ played.
Proof.
  intros H. unfold taken in H.
  destruct (in_pre_test now r && negb (notified r)
            && negb (bool_decide (key (id r) PreAlert ∈ played))) eqn:E1.
  - simplify_eq. apply andb_true_iff in E1 as [_ E1].
    by apply negb_true_iff, bool_decide_eq_false in E1.
  - destruct (in_due_test now r
              && negb (bool_decide (key (id r) DueAlert ∈ played))) eqn:E2;
      simplify_eq.
    apply andb_true_iff in E2 as [_ E2].
    by apply negb_true_iff, bool_decide_eq_false in E2.
Qed.

Lemma marked_insert_same (i : Z) (t : Threshold) (played : gset string) :
  marked i t ({[ key i t ]} ∪ played) = 1%nat.
Proof. unfold marked. rewrite bool_decide_eq_true_2; [done | set_solver]. Qed.

Lemma marked_insert_other (i j : Z) (t u : Threshold) (played : gset string) :
  ¬ (j = i ∧ u = t) → marked i t ({[ key j u ]} ∪ played) = marked i t played.
Proof.
  intros Hne. unfold marked. apply (f_equal (fun c : bool => if c then _ else _)).
  apply bool_decide_ext. rewrite elem_of_union, elem_of_singleton.
  split; [|by right]. intros [Heq%key_inj|]; [|done]. destruct Heq; subst. tauto.
Qed.

Section VisitFacts.

Variable b : Browser.
Variable now : Z.

(** One visit dispatches the alert of a key exactly when it puts the key in
    the set. *)
Lemma visit_conserve (played : gset string) (ctx : option AudioContext)
    (r : Reminder) (i : Z) (t : Threshold) :
  (dispatch_count i t (visit b now played ctx r).2 + marked i t played)%nat
  = marked i t (visit b now played ctx r).1.1.2.
Proof.
  rewrite visit_unfold. destruct (taken now played r) as [u|] eqn:Htaken; simpl; [|done].
  unfold dispatch_count. rewrite entries_for_labelled.
  destruct (decide (id r = i ∧ u = t)) as [[<- <-]|Hne].
  - rewrite alert_sounds_once, marked_insert_same.
    apply taken_unmarked in Htaken. unfold marked.
    by rewrite bool_decide_eq_false_2.
  - by rewrite marked_insert_other.
Qed.

(** Every alert sends one acknowledgement, and logs four entries. *)
Lemma visit_ack_count (played : gset string) (ctx : option AudioContext)
    (r : Reminder) (i : Z) (t : Threshold) :
  ack_count i t (visit b now played ctx r).2
  = dispatch_count i t (visit b now played ctx r).2.
Proof.
  rewrite visit_unfold. destruct (taken now played r) as [u|]; simpl; [|done].
  unfold ack_count, dispatch_count. rewrite entries_for_labelled.
  destruct (decide _); [|done]. by rewrite alert_sounds_once, alert_acks_once.
Qed.

Lemma visit_entries_length (played : gset string) (ctx : option AudioContext)
    (r : Reminder) (i : Z) (t : Threshold) :
  length (entries_for i t (visit b now played ctx r).2)
  = (4 * dispatch_count i t (visit b now played ctx r).2)%nat.
Proof.
  rewrite visit_unfold. destruct (taken now played r) as [u|]; simpl; [|done].
  unfold dispatch_count. rewrite entries_for_labelled.
  destruct (decide _); [|done]. rewrite alert_sounds_once. by destruct u.
Qed.

Lemma visit_origin (played : gset string) (ctx : option AudioContext)
    (r : Reminder) (e : Entry) :
  e ∈ (visit b now played ctx r).2 → origin e = id r.
Proof.
  rewrite visit_unfold. destruct (taken now played r) as [u|]; simpl.
  - intros (x & -> & _)%list_elem_of_fmap. done.
  - by intros ?%not_elem_of_nil.
Qed.

Lemma visit_reminder (played : gset string) (ctx : option AudioContext)
    (r : Reminder) :
  let r' := (visit b now played ctx r).1.1.1 in
  id r' = id r ∧ title r' = title r ∧ date_time r' = date_time r ∧
  (notified r = true → notified r' = true).
Proof.
  rewrite visit_unfold. destruct (taken now played r) as [[]|]; simpl; auto.
Qed.

(** forEach *)

Lemma forEach_conserve (rs : list Reminder) (played : gset string)
    (ctx : option AudioContext) (i : Z) (t : Threshold) :
  (dispatch_count i t (forEach b now rs played ctx).2 + marked i t played)%nat
  = marked i t (forEach b now rs played ctx).1.1.2.
Proof.
  revert played ctx. induction rs as [|r rs IH]; intros played ctx; simpl; [done|].
  pose proof (visit_conserve played ctx r i t) as Hv.
  destruct (visit b now played ctx r) as [[[r' played1] ctx1] log1]. simpl in Hv.
  specialize (IH played1 ctx1).
  destruct (forEach b now rs played1 ctx1) as [[[rs' played2] ctx2] log2].
  simpl in *. rewrite dispatch_count_app. lia.
Qed.

Lemma forEach_ack_count (rs : list Reminder) (played : gset string)
    (ctx : option AudioContext) (i : Z) (t : Threshold) :
  ack_count i t (forEach b now rs played ctx).2
  = dispatch_count i t (forEach b now rs played ctx).2.
Proof.
  revert played ctx. induction rs as [|r rs IH]; intros played ctx; simpl; [done|].
  pose proof (visit_ack_count played ctx r i t) as Hv.
  destruct (visit b now played ctx r) as [[[r' played1] ctx1] log1]. simpl in Hv.
  specialize (IH played1 ctx1).
  destruct (forEach b now rs played1 ctx1) as [[[rs' played2] ctx2] log2].
  simpl in *. rewrite dispatch_count_app, ack_count_app. lia.
Qed.

Lemma forEach_entries_length (rs : list Reminder) (played : gset string)
    (ctx : option AudioContext) (i : Z) (t : Threshold) :
  length (entries_for i t (forEach b now rs played ctx).2)
  = (4 * dispatch_count i t (forEach b now rs played ctx).2)%nat.
Proof.
  revert played ctx. induction rs as [|r rs IH]; intros played ctx; simpl; [done|].
  pose proof (visit_entries_length played ctx r i t) as Hv.
  destruct (visit b now played ctx r) as [[[r' played1] ctx1] log1]. simpl in Hv.
  specialize (IH played1 ctx1).
  destruct (forEach b now rs played1 ctx1) as [[[rs' played2] ctx2] log2].
  simpl in *. rewrite dispatch_count_app, entries_for_app, length_app. lia.
Qed.

Lemma forEach_origin (rs : list Reminder) (played : gset string)
    (ctx : option AudioContext) (e : Entry) :
  e ∈ (forEach b now rs played ctx).2 → origin e ∈ id <$> rs.
Proof.
  revert played ctx. induction rs as [|r rs IH]; intros played ctx; simpl.
  - by intros ?%not_elem_of_nil.
  - pose proof (visit_origin played ctx r e) as Hv.
    destruct (visit b now played ctx r) as [[[r' played1] ctx1] log1]. simpl in Hv.
    specialize (IH played1 ctx1).
    destruct (forEach b now rs played1 ctx1) as [[[rs' played2] ctx2] log2].
    simpl in *. intros [Hin|Hin]%elem_of_app.
    + rewrite (Hv Hin). left.
    + right. auto.
Qed.

(** The cache after a tick: same reminders in the same order, and a
    [notified] flag that was set stays set. *)
Lemma forEach_cache (rs : list Reminder) (played : gset string)
    (ctx : option AudioContext) :
  Forall2 (fun r r' => id r' = id r ∧ title r' = title r ∧
                       date_time r' = date_time r ∧
                       (notified r = true → notified r' = true))
          rs (forEach b now rs played ctx).1.1.1.
Proof.
  revert played ctx. induction rs as [|r rs IH]; intros played ctx; simpl.
  - constructor.
  - pose proof (visit_reminder played ctx r) as Hv.
    destruct (visit b now played ctx r) as [[[r' played1] ctx1] log1]. simpl in Hv.
    specialize (IH played1 ctx1).
    destruct (forEach b now rs played1 ctx1) as [[[rs' played2] ctx2] log2].
    simpl in *. by constructor.
Qed.

End VisitFacts.

Lemma entries_for_absent (i : Z) (t : Threshold) (log : list Entry) :
  (∀ e, e ∈ log → origin e ≠ i) → entries_for i t log = [].
Proof.
  intros H. unfold entries_for. induction log as [|e log IH]; [done|].
  rewrite filter_cons. destruct (decide _) as [[Ho _]|_].
  - exfalso. by apply (H e); [left|].
  - apply IH. intros e' He'. apply H. by right.
Qed.

Lemma taken_ext (now : Z) (played played' : gset string) (r : Reminder) :
  (∀ u, key (id r) u ∈ played' ↔ key (id r) u ∈ played) →
  taken now played' r = taken now played r.
Proof.
  intros H. unfold taken.
  by rewrite (bool_decide_ext _ _ (H PreAlert)), (bool_decide_ext _ _ (H DueAlert)).
Qed.

Section TickFacts.

Variable b : Browser.
Variable now : Z.

Lemma visit_played_other (played : gset string) (ctx : option AudioContext)
    (r : Reminder) (i : Z) (u : Threshold) :
  id r ≠ i →
  key i u ∈ (visit b now played ctx r).1.1.2 ↔ key i u ∈ played.
Proof.
  intros Hne. rewrite visit_unfold. destruct (taken now played r) as [t|]; simpl; [|done].
  rewrite elem_of_union, elem_of_singleton. split; [|by right].
  intros [Heq%key_inj|]; [|done]. destruct Heq. congruence.
Qed.

Lemma visit_entries (played : gset string) (ctx : option AudioContext)
    (r : Reminder) (t : Threshold) :
  entries_for (id r) t (visit b now played ctx r).2 =
    if decide (taken now played r = Some t)
    then Build_Entry (id r) t <$>
           alert_effects t b r (calls (playNotificationSound b ctx (sound_of t)).2)
    else [].
Proof.
  rewrite visit_unfold. destruct (taken now played r) as [u|]; cbn [fst snd].
  - rewrite entries_for_labelled.
    destruct (decide (id r = id r ∧ u = t)) as [[_ ->]|Hne].
    + by rewrite decide_True.
    + rewrite decide_False; [done|]. intros [= ->]. by apply Hne.
  - by destruct (decide (None = Some t)).
Qed.

(** With distinct ids in the cache, what a tick logs for a reminder is what
    the visit of that reminder logs, and the visit sees the reminder's keys as
    they were when the tick started. *)
Lemma forEach_entries (rs : list Reminder) (played : gset string)
    (ctx : option AudioContext) (r : Reminder) :
  NoDup (id <$> rs) → r ∈ rs →
  ∃ ctx0, ∀ t,
    entries_for (id r) t (forEach b now rs played ctx).2 =
      if decide (taken now played r = Some t)
      then Build_Entry (id r) t <$>
             alert_effects t b r (calls (playNotificationSound b ctx0 (sound_of t)).2)
      else [].
Proof.
  revert played ctx. induction rs as [|r0 rs IH]; intros played ctx Hnd Hin.
  - by apply not_elem_of_nil in Hin.
  - rewrite fmap_cons in Hnd. apply NoDup_cons in Hnd as [Hfresh Hnd].
    simpl.
    pose proof (visit_entries played ctx r0) as Hv.
    pose proof (visit_origin b now played ctx r0) as Ho.
    pose proof (fun u => visit_played_other played ctx r0 (id r) u) as Hp.
    destruct (visit b now played ctx r0) as [[[r' played1] ctx1] log1].
    simpl in Hv, Ho, Hp.
    pose proof (forEach_origin b now rs played1 ctx1) as Ho2.
    specialize (IH played1 ctx1 Hnd).
    destruct (forEach b now rs played1 ctx1) as [[[rs' played2] ctx2] log2].
    simpl in *.
    apply elem_of_cons in Hin as [->|Hin].
    + exists ctx. intros t. rewrite entries_for_app, Hv.
      rewrite (entries_for_absent _ _ log2); [by rewrite app_nil_r|].
      intros e He Heq. apply Hfresh. rewrite <- Heq. by apply Ho2.
    + assert (id r0 ≠ id r) as Hne.
      { intros Heq. apply Hfresh. rewrite Heq. by apply list_elem_of_fmap_2. }
      destruct (IH Hin) as [ctx0 IH']. exists ctx0. intros t.
      rewrite entries_for_app, IH'.
      rewrite (entries_for_absent _ _ log1).
      * simpl. by rewrite (taken_ext now played played1 r (fun u => Hp u Hne)).
      * intros e He Heq. apply Hne. rewrite <- Heq. symmetry. by apply Ho.
Qed.

Lemma checkReminders_log (st : State) :
  (checkReminders b now st).2 =
  (forEach b now (reminders st) (hasPlayedSound st) (audioContext st)).2.
Proof.
  unfold checkReminders.
  by destruct (forEach b now _ _ _) as [[[rs played] ctx] log].
Qed.

Lemma checkReminders_played (st : State) :
  hasPlayedSound (checkReminders b now st).1 =
  (forEach b now (reminders st) (hasPlayedSound st) (audioContext st)).1.1.2.
Proof.
  unfold checkReminders.
  by destruct (forEach b now _ _ _) as [[[rs played] ctx] log].
Qed.

Lemma checkReminders_cache (st : State) :
  reminders (checkReminders b now st).1 =
  (forEach b now (reminders st) (hasPlayedSound st) (audioContext st)).1.1.1.
Proof.
  unfold checkReminders.
  by destruct (forEach b now _ _ _) as [[[rs played] ctx] log].
Qed.

Lemma checkReminders_entries (st : State) (r : Reminder) :
  NoDup (id <$> reminders st) → r ∈ reminders st →
  ∃ ctx0, ∀ t,
    entries_for (id r) t (checkReminders b now st).2 =
      if decide (taken now (hasPlayedSound st) r = Some t)
      then Build_Entry (id r) t <$>
             alert_effects t b r (calls (playNotificationSound b ctx0 (sound_of t)).2)
      else [].
Proof. rewrite checkReminders_log. apply forEach_entries. Qed.

Lemma fmap_effect_labelled (i : Z) (t : Threshold) (es : list Effect) :
  effect <$> (Build_Entry i t <$> es) = es.
Proof. induction es as [|e es IH]; [done|]. rewrite !fmap_cons, IH. done. Qed.

(** A tick dispatches the alert [t] of a cached reminder exactly when the
    visit of that reminder takes branch [t]. *)
Lemma checkReminders_dispatches (st : State) (r : Reminder) (t : Threshold) :
  NoDup (id <$> reminders st) → r ∈ reminders st →
  dispatches b r t (checkReminders b now st).2 ↔
  taken now (hasPlayedSound st) r = Some t.
Proof.
  intros Hnd Hin. destruct (checkReminders_entries st r Hnd Hin) as [ctx0 H].
  unfold dispatches. rewrite (H t).
  destruct (decide (taken now (hasPlayedSound st) r = Some t)) as [Ht|Ht].
  - split; [done|]. intros _. eexists. apply fmap_effect_labelled.
  - split; [|done]. intros [made Hm]. by destruct t.
Qed.

Lemma checkReminders_dispatch_count (st : State) (r : Reminder) (t : Threshold) :
  NoDup (id <$> reminders st) → r ∈ reminders st →
  dispatch_count (id r) t (checkReminders b now st).2 =
  if decide (taken now (hasPlayedSound st) r = Some t) then 1%nat else 0%nat.
Proof.
  intros Hnd Hin. destruct (checkReminders_entries st r Hnd Hin) as [ctx0 H].
  unfold dispatch_count. rewrite (H t).
  destruct (decide _); [|done]. apply alert_sounds_once.
Qed.

End TickFacts.

(** ** Sessions *)

Lemma marked_clear_other (i j : Z) (t : Threshold) (played : gset string) :
  i ≠ j →
  marked i t (played ∖ {[ key j PreAlert ]} ∖ {[ key j DueAlert ]}) = marked i t played.
Proof.
  intros Hne. unfold marked. apply (f_equal (fun c : bool => if c then _ else _)).
  apply bool_decide_ext. rewrite !elem_of_difference, !elem_of_singleton.
  split; [tauto|]. intros Hin. repeat split; [done|..];
    intros [? _]%key_inj; done.
Qed.

Lemma step_conserve (task : Task) (st : State) (i : Z) (t : Threshold) :
  task ≠ ClearKeys i →
  (dispatch_count i t (step task st).2 + marked i t (hasPlayedSound st))%nat
  = marked i t (hasPlayedSound (step task st).1).
Proof.
  intros Hne. destruct task as [b now|resp|j]; [simpl..|].
  - rewrite checkReminders_log, checkReminders_played. apply forEach_conserve.
  - by destruct resp.
  - unfold step, clearKeys. cbn [fst snd hasPlayedSound].
    rewrite marked_clear_other; [done|]. intros ->. done.
Qed.

Lemma step_counts (task : Task) (st : State) (i : Z) (t : Threshold) :
  ack_count i t (step task st).2 = dispatch_count i t (step task st).2 ∧
  length (entries_for i t (step task st).2)
    = (4 * dispatch_count i t (step task st).2)%nat.
Proof.
  destruct task as [b now|resp|j]; simpl; [|done..].
  rewrite checkReminders_log. split.
  - apply forEach_ack_count.
  - apply forEach_entries_length.
Qed.

(** Unless the keys of [i] are cleared, the dispatches of a key over a whole
    session are accounted for by the key entering the set. *)
Lemma run_conserve (ts : list Task) (st : State) (i : Z) (t : Threshold) :
  ClearKeys i ∉ ts →
  (dispatch_count i t (run ts st).2 + marked i t (hasPlayedSound st))%nat
  = marked i t (hasPlayedSound (run ts st).1).
Proof.
  revert st. induction ts as [|task ts IH]; intros st Hnc; simpl; [done|].
  apply not_elem_of_cons in Hnc as [Hne Hnc].
  pose proof (step_conserve task st i t (not_eq_sym Hne)) as Hs.
  destruct (step task st) as [st1 log1]. specialize (IH st1 Hnc).
  destruct (run ts st1) as [st2 log2]. simpl in *.
  rewrite dispatch_count_app. lia.
Qed.

Lemma run_counts (ts : list Task) (st : State) (i : Z) (t : Threshold) :
  ack_count i t (run ts st).2 = dispatch_count i t (run ts st).2 ∧
  length (entries_for i t (run ts st).2)
    = (4 * dispatch_count i t (run ts st).2)%nat.
Proof.
  revert st. induction ts as [|task ts IH]; intros st; simpl; [done|].
  pose proof (step_counts task st i t) as [Hs1 Hs2].
  destruct (step task st) as [st1 log1]. specialize (IH st1) as [IH1 IH2].
  destruct (run ts st1) as [st2 log2]. simpl in *.
  rewrite dispatch_count_app, ack_count_app, entries_for_app, length_app. lia.
Qed.

Lemma marked_le_1 (i : Z) (t : Threshold) (played : gset string) :
  (marked i t played ≤ 1)%nat.
Proof. unfold marked. destruct (bool_decide _); lia. Qed.

Lemma run_at_most_once (ts : list Task) (st : State) (i : Z) (t : Threshold) :
  ClearKeys i ∉ ts → (dispatch_count i t (run ts st).2 ≤ 1)%nat.
Proof.
  intros Hnc. pose proof (run_conserve ts st i t Hnc) as H.
  pose proof (marked_le_1 i t (hasPlayedSound (run ts st).1)). lia.
Qed.

(** ** The branch taken, in terms of the clock *)

Lemma taken_pre_iff (now : Z) (played : gset string) (r : Reminder) (T : Z) :
  date_time r = Some T →
  taken now played r = Some PreAlert ↔
  T - 300000 ≤ now < T ∧ notified r = false ∧ key (id r) PreAlert ∉ played.
Proof.
  intros HT. rewrite <- (in_pre_test_spec now r T HT).
  rewrite <- (bool_decide_eq_false (key (id r) PreAlert ∈ played)).
  rewrite <- !negb_true_iff, <- !andb_true_iff, andb_assoc. unfold taken.
  destruct (in_pre_test now r && negb (notified r)
            && negb (bool_decide (key (id r) PreAlert ∈ played))); [done|].
  split; [|done].
  by destruct (in_due_test now r && negb (bool_decide (key (id r) DueAlert ∈ played))).
Qed.

Lemma taken_due_iff (now : Z) (played : gset string) (r : Reminder) (T : Z) :
  date_time r = Some T →
  taken now played r = Some DueAlert ↔
  T ≤ now < T + 60000 ∧ key (id r) DueAlert ∉ played.
Proof.
  intros HT. rewrite <- (in_due_test_spec now r T HT).
  rewrite <- (bool_decide_eq_false (key (id r) DueAlert ∈ played)).
  rewrite <- negb_true_iff, <- andb_true_iff. unfold taken.
  destruct (in_due_test now r) eqn:Edue.
  - assert (in_pre_test now r = false) as ->.
    { destruct (in_pre_test now r) eqn:Epre; [|done].
      apply tests_exclusive in Epre. congruence. }
    rewrite !andb_false_l, andb_true_l.
    by destruct (negb (bool_decide (key (id r) DueAlert ∈ played))).
  - rewrite !andb_false_l. split; [|done].
    by destruct (in_pre_test now r && negb (notified r)
                 && negb (bool_decide (key (id r) PreAlert ∈ played))).
Qed.

Lemma taken_pre_unnotified (now : Z) (played : gset string) (r : Reminder) :
  taken now played r = Some PreAlert → notified r = false.
Proof.
  unfold taken. destruct (notified r); [|done].
  rewrite andb_false_r, andb_false_l. by repeat case_match.
Qed.

(** ** Reminders that are notified, or gone *)

Section CacheFacts.

Variable b : Browser.
Variable now : Z.

Lemma forEach_ids (rs : list Reminder) (played : gset string)
    (ctx : option AudioContext) :
  id <$> (forEach b now rs played ctx).1.1.1 = id <$> rs.
Proof.
  pose proof (forEach_cache b now rs played ctx) as H.
  induction H as [|r r' rs rs' (Hid & _) _ IH]; [done|].
  by rewrite !fmap_cons, Hid, IH.
Qed.

Lemma forEach_stays_notified (rs : list Reminder) (played : gset string)
    (ctx : option AudioContext) (i : Z) :
  (∀ r, r ∈ rs → id r = i → notified r = true) →
  ∀ r', r' ∈ (forEach b now rs played ctx).1.1.1 → id r' = i → notified r' = true.
Proof.
  pose proof (forEach_cache b now rs played ctx) as H.
  induction H as [|r r' rs rs' (Hid & _ & _ & Hn) _ IH]; intros Hall x Hx Hi.
  - by apply not_elem_of_nil in Hx.
  - apply elem_of_cons in Hx as [->|Hx].
    + apply Hn, Hall; [left | congruence].
    + apply IH; [|done..]. intros y Hy. apply Hall. by right.
Qed.

Lemma forEach_no_pre (rs : list Reminder) (played : gset string)
    (ctx : option AudioContext) (i : Z) :
  (∀ r, r ∈ rs → id r = i → notified r = true) →
  entries_for i PreAlert (forEach b now rs played ctx).2 = [].
Proof.
  revert played ctx. induction rs as [|r rs IH]; intros played ctx Hall; simpl; [done|].
  pose proof (visit_entries b now played ctx r PreAlert) as Hv.
  pose proof (visit_origin b now played ctx r) as Ho.
  destruct (visit b now played ctx r) as [[[r' played1] ctx1] log1]. simpl in Hv, Ho.
  assert (∀ x, x ∈ rs → id x = i → notified x = true) as Hall'.
  { intros x Hx. apply Hall. by right. }
  specialize (IH played1 ctx1 Hall').
  destruct (forEach b now rs played1 ctx1) as [[[rs' played2] ctx2] log2].
  simpl in *. rewrite entries_for_app, IH, app_nil_r.
  destruct (decide (id r = i)) as [<-|Hne].
  - rewrite Hv. destruct (decide _) as [Ht|]; [|done].
    apply taken_pre_unnotified in Ht.
    rewrite (Hall r) in Ht; [done | left | done].
  - apply entries_for_absent. intros e He Heq. apply Hne. rewrite <- Heq.
    symmetry. by apply Ho.
Qed.

End CacheFacts.

Lemma run_no_pre (ts : list Task) (st : State) (i : Z) :
  (∀ r, r ∈ reminders st → id r = i → notified r = true) →
  reloads_notified i ts →
  entries_for i PreAlert (run ts st).2 = [].
Proof.
  revert st. induction ts as [|task ts IH]; intros st Hall Hre; simpl; [done|].
  assert (reloads_notified i ts) as Hre'.
  { intros rs r Hin. apply (Hre rs r). by right. }
  assert (entries_for i PreAlert (step task st).2 = [] ∧
          ∀ r, r ∈ reminders (step task st).1 → id r = i → notified r = true)
    as [Hlog Hall'].
  { destruct task as [b now|resp|j]; simpl.
    - rewrite checkReminders_log, checkReminders_cache. split.
      + by apply forEach_no_pre.
      + by apply forEach_stays_notified.
    - split; [done|]. destruct resp as [| |rs]; simpl; [done..|].
      intros r. apply (Hre rs r). left.
    - done. }
  destruct (step task st) as [st1 log1]. specialize (IH st1 Hall' Hre').
  destruct (run ts st1) as [st2 log2]. simpl in *.
  by rewrite entries_for_app, Hlog, IH.
Qed.

Lemma run_absent (ts : list Task) (st : State) (i : Z) :
  i ∉ id <$> reminders st → never_returned i ts →
  ∀ e, e ∈ (run ts st).2 → origin e ≠ i.
Proof.
  revert st. induction ts as [|task ts IH]; intros st Hout Hre e; simpl.
  { by intros ?%not_elem_of_nil. }
  assert (never_returned i ts) as Hre'.
  { intros rs Hin. apply (Hre rs). by right. }
  assert ((∀ e, e ∈ (step task st).2 → origin e ≠ i) ∧
          i ∉ id <$> reminders (step task st).1) as [Hlog Hout'].
  { destruct task as [b now|resp|j]; simpl.
    - rewrite checkReminders_log, checkReminders_cache, forEach_ids. split; [|done].
      intros e' He' Heq. apply Hout. rewrite <- Heq. by apply forEach_origin in He'.
    - split; [by intros ? ?%not_elem_of_nil|].
      destruct resp as [| |rs]; simpl; [done..|]. apply (Hre rs). left.
    - split; [by intros ? ?%not_elem_of_nil | done]. }
  destruct (step task st) as [st1 log1]. specialize (IH st1 Hout' Hre' e).
  destruct (run ts st1) as [st2 log2]. simpl in *.
  intros [Hin|Hin]%elem_of_app; auto.
Qed.

(** A deletion that succeeded is its two tasks run back to back. *)
Lemma deleteReminder_tasks (reload : Response (list Reminder)) (i : Z) (st : State) :
  deleteReminder true (Ok tt) reload i st = (run (deletion_tasks i reload) st).1.
Proof. done. Qed.

(** ** Notification calls *)

Lemma notification_calls_app (l1 l2 : list Entry) :
  notification_calls (l1 ++ l2) = notification_calls l1 ++ notification_calls l2.
Proof. unfold notification_calls. apply flat_map_app. Qed.

Lemma request_count_app (l1 l2 : list Entry) :
  request_count (l1 ++ l2) = (request_count l1 + request_count l2)%nat.
Proof. unfold request_count. by rewrite notification_calls_app, filter_app, length_app. Qed.

Lemma alert_count_app (l1 l2 : list Entry) :
  alert_count (l1 ++ l2) = (alert_count l1 + alert_count l2)%nat.
Proof. unfold alert_count. by rewrite filter_app, length_app. Qed.

Lemma api_calls_app (l1 l2 : list Entry) :
  api_calls (l1 ++ l2) = api_calls l1 ++ api_calls l2.
Proof. unfold api_calls. by rewrite notification_calls_app, filter_app. Qed.

(** Asking is what [sendNotification] does in the default state, and only
    then. *)
Lemma sendNotification_requests (b : Browser) (text body : string) :
  length (filter (fun c => is_request c = true) (sendNotification b text body)) =
    if notification_supported b && bool_decide (permission b = Default)
    then 1%nat else 0%nat.
Proof.
  unfold sendNotification.
  by destruct (notification_supported b), (permission b).
Qed.

Lemma sendNotification_denied (b : Browser) (text body : string) :
  permission b = Denied →
  filter (fun c => is_api_call c = true) (sendNotification b text body) = [].
Proof.
  intros Hd. unfold sendNotification. rewrite Hd.
  by destruct (notification_supported b).
Qed.

Lemma alert_notification_calls (t : Threshold) (b : Browser) (r : Reminder)
    (made : list AudioCall) (i : Z) :
  ∃ text body,
    notification_calls (Build_Entry i t <$> alert_effects t b r made)
    = sendNotification b text body.
Proof. destruct t; do 2 eexists; unfold notification_calls; simpl; by rewrite app_nil_r. Qed.

Lemma alert_count_alert (t : Threshold) (b : Browser) (r : Reminder)
    (made : list AudioCall) (i : Z) :
  alert_count (Build_Entry i t <$> alert_effects t b r made) = 1%nat.
Proof. by destruct t. Qed.

Section NotificationFacts.

Variable b : Browser.
Variable now : Z.

Lemma visit_requests (played : gset string) (ctx : option AudioContext)
    (r : Reminder) :
  request_count (visit b now played ctx r).2 =
    if notification_supported b && bool_decide (permission b = Default)
    then alert_count (visit b now played ctx r).2 else 0%nat.
Proof.
  rewrite visit_unfold. destruct (taken now played r) as [t|]; cbn [fst snd].
  - rewrite alert_count_alert. unfold request_count.
    destruct (alert_notification_calls t b r
                (calls (playNotificationSound b ctx (sound_of t)).2) (id r))
      as (text & body & ->).
    apply sendNotification_requests.
  - by destruct (_ && _).
Qed.

Lemma forEach_requests (rs : list Reminder) (played : gset string)
    (ctx : option AudioContext) :
  request_count (forEach b now rs played ctx).2 =
    if notification_supported b && bool_decide (permission b = Default)
    then alert_count (forEach b now rs played ctx).2 else 0%nat.
Proof.
  revert played ctx. induction rs as [|r rs IH]; intros played ctx; simpl.
  - by destruct (_ && _).
  - pose proof (visit_requests played ctx r) as Hv.
    destruct (visit b now played ctx r) as [[[r' played1] ctx1] log1].
    specialize (IH played1 ctx1).
    destruct (forEach b now rs played1 ctx1) as [[[rs' played2] ctx2] log2].
    cbn [fst snd] in *. rewrite request_count_app, alert_count_app, Hv, IH.
    by destruct (_ && _).
Qed.

Lemma visit_denied (played : gset string) (ctx : option AudioContext)
    (r : Reminder) :
  permission b = Denied → api_calls (visit b now played ctx r).2 = [].
Proof.
  intros Hd. rewrite visit_unfold. destruct (taken now played r) as [t|]; cbn [fst snd].
  - unfold api_calls.
    destruct (alert_notification_calls t b r
                (calls (playNotificationSound b ctx (sound_of t)).2) (id r))
      as (text & body & ->).
    by apply sendNotification_denied.
  - done.
Qed.

Lemma forEach_denied (rs : list Reminder) (played : gset string)
    (ctx : option AudioContext) :
  permission b = Denied → api_calls (forEach b now rs played ctx).2 = [].
Proof.
  intros Hd. revert played ctx. induction rs as [|r rs IH]; intros played ctx; simpl.
  - done.
  - pose proof (visit_denied played ctx r Hd) as Hv.
    destruct (visit b now played ctx r) as [[[r' played1] ctx1] log1].
    specialize (IH played1 ctx1).
    destruct (forEach b now rs played1 ctx1) as [[[rs' played2] ctx2] log2].
    cbn [fst snd] in *. by rewrite api_calls_app, Hv, IH.
Qed.

End NotificationFacts.

Lemma every_tick_cons (P : Browser → Prop) (task : Task) (ts : list Task) :
  every_tick P (task :: ts) → every_tick P ts.
Proof. intros H b now Hin. apply (H b now). by right. Qed.

Lemma run_requests (ts : list Task) (st : State) :
  every_tick (fun b => notification_supported b = true ∧ permission b = Default) ts →
  request_count (run ts st).2 = alert_count (run ts st).2.
Proof.
  revert st. induction ts as [|task ts IH]; intros st Hall; simpl; [done|].
  assert (request_count (step task st).2 = alert_count (step task st).2) as Hs.
  { destruct task as [b now|resp|j]; simpl; [|done..].
    rewrite checkReminders_log, forEach_requests.
    destruct (Hall b now) as [-> ->]; [left|]. done. }
  destruct (step task st) as [st1 log1].
  specialize (IH st1 (every_tick_cons _ _ _ Hall)).
  destruct (run ts st1) as [st2 log2]. cbn [fst snd] in *.
  by rewrite request_count_app, alert_count_app, Hs, IH.
Qed.

Lemma run_denied (ts : list Task) (st : State) :
  every_tick (fun b => permission b = Denied) ts →
  api_calls (run ts st).2 = [].
Proof.
  revert st. induction ts as [|task ts IH]; intros st Hall; simpl; [done|].
  assert (api_calls (step task st).2 = []) as Hs.
  { destruct task as [b now|resp|j]; simpl; [|done..].
    rewrite checkReminders_log. apply forEach_denied. apply (Hall b now). left. }
  destruct (step task st) as [st1 log1].
  specialize (IH st1 (every_tick_cons _ _ _ Hall)).
  destruct (run ts st1) as [st2 log2]. cbn [fst snd] in *.
  by rewrite api_calls_app, Hs, IH.
Qed.

Lemma same_id_same_reminder (rs : list Reminder) (r r' : Reminder) :
  NoDup (id <$> rs) → r ∈ rs → r' ∈ rs → id r' = id r → r' = r.
Proof.
  induction rs as [|x rs IH]; intros Hnd Hr Hr' Hid.
  - by apply not_elem_of_nil in Hr.
  - rewrite fmap_cons in Hnd. apply NoDup_cons in Hnd as [Hx Hnd].
    apply elem_of_cons in Hr as [->|Hr]; apply elem_of_cons in Hr' as [->|Hr'].
    + done.
    + exfalso. apply Hx. rewrite <- Hid. by apply list_elem_of_fmap_2.
    + exfalso. apply Hx. rewrite Hid. by apply list_elem_of_fmap_2.
    + by apply IH.
Qed.

(** A dispatched alert has its sound in the log. *)
Lemma dispatches_sound (b : Browser) (r : Reminder) (t : Threshold)
    (log : list Entry) :
  dispatches b r t log →
  ∃ made, Build_Entry (id r) t (PlayNotificationSound (sound_of t) made) ∈ log.
Proof.
  intros [made H].
  destruct (entries_for (id r) t log) as [|e es] eqn:E.
  { by destruct t. }
  assert (e ∈ entries_for (id r) t log) as He by (rewrite E; left).
  apply list_elem_of_filter in He as [[Ho Hb] He].
  exists made. destruct e as [o br eff]. simpl in *. subst o br.
  destruct t; simpl in H; injection H as -> _; exact He.
Qed.

(** * Properties of the scheduler *)

(** C9.  Whatever the browser does, and for every alert type,
    [playNotificationSound] returns to its caller without throwing; the
    pre-encoded sample is built exactly once when the synthesis block
    throws, and not at all when it does not. *)
Theorem playNotificationSound_never_throws (b : Browser)
    (audioContext : option AudioContext) (type : string) :
  let result := playNotificationSound b audioContext type in
  outcome result.2 = Normal tt ∧
  length (filter (fun c => c = NewAudio) (calls result.2)) =
    if throws (synthesize b result.1 type) then 1%nat else 0%nat.
Proof.
  split; [apply playNotificationSound_returns|].
  unfold playNotificationSound.
  assert (∀ l, NewAudio ∉ l →
          NewAudio ∉ (match audioContext with
                      | Some _ => (audioContext, l)
                      | None => initAudioContext b audioContext
                      end).2) as Hinit.
  { intros l Hl. destruct audioContext; [done|]. unfold initAudioContext.
    destruct (audio_throws b 0%nat NewAudioContext); simpl;
      intros Hin; repeat (apply elem_of_cons in Hin as [Hin|Hin]; [discriminate Hin|]);
      by apply not_elem_of_nil in Hin. }
  specialize (Hinit [] (not_elem_of_nil _)).
  destruct (match audioContext with
            | Some _ => (audioContext, [])
            | None => initAudioContext b audioContext
            end) as [ctx l0].
  cbn [fst snd] in *.
  set (l1 := match ctx with
             | Some c => if suspended c then [Resume] else []
             | None => []
             end).
  assert (NewAudio ∉ l1) as Hl1.
  { unfold l1. destruct ctx as [c|]; [destruct (suspended c)|];
      intros Hin; repeat (apply elem_of_cons in Hin as [Hin|Hin]; [discriminate Hin|]);
      by apply not_elem_of_nil in Hin. }
  pose proof (synthesize_no_sample b ctx type) as Hs.
  pose proof (fallback_sample_once b) as Hf.
  unfold throws, outcome, calls, bind, try_catch in *.
  destruct (synthesize b ctx type) as [l [[]|]]; cbn [fst snd] in *.
  - rewrite !filter_app, !filter_absent; done.
  - destruct (fallback b) as [l' o']. cbn [fst snd] in *.
    rewrite !filter_app, !length_app, Hf.
    rewrite (filter_absent _ l0), (filter_absent _ l1), (filter_absent _ l); done.
Qed.

(** C1, amended.  For a cached reminder due at [T], not yet notified and with
    its PreAlert key unmarked, a tick dispatches the PreAlert (the standard
    chime and the five-minutes message) if and only if
    [T - 5min <= now < T]; and over any session in which the reminder is not
    deleted the PreAlert is dispatched at most once. *)
Theorem pre_alert_window (b : Browser) (now : Z) (st : State) (r : Reminder) (T : Z) :
  NoDup (id <$> reminders st) → r ∈ reminders st →
  date_time r = Some T → notified r = false →
  key (id r) PreAlert ∉ hasPlayedSound st →
  (dispatches b r PreAlert (checkReminders b now st).2 ↔ T - 300000 ≤ now < T) ∧
  (∀ ts, ClearKeys (id r) ∉ ts →
         (dispatch_count (id r) PreAlert (run ts st).2 ≤ 1)%nat).
Proof.
  intros Hnd Hin HT Hn Hk. split.
  - rewrite checkReminders_dispatches, (taken_pre_iff now _ r T) by done. tauto.
  - intros ts. apply run_at_most_once.
Qed.

Lemma pre_alert_window_witness :
  (dispatches (browser Granted) pill PreAlert
     (checkReminders (browser Granted) 100000 (initial [pill; walk])).2
   ↔ 300000 - 300000 ≤ 100000 < 300000) ∧
  (∀ ts, ClearKeys (id pill) ∉ ts →
         (dispatch_count (id pill) PreAlert (run ts (initial [pill; walk])).2 ≤ 1)%nat).
Proof.
  apply (pre_alert_window (browser Granted) 100000 (initial [pill; walk]) pill 300000).
  - apply (bool_decide_unpack _). vm_compute. exact I.
  - left.
  - reflexivity.
  - reflexivity.
  - apply not_elem_of_empty.
Defined.

(** C1 as stated fails at [now = T]: the instant [T] lies in [(T - 5min, T]],
    yet the tick dispatches no PreAlert (it dispatches the DueAlert). *)
Lemma pre_alert_missed_at_due_time :
  let T := 300000 in
  let now := 300000 in
  let log := (checkReminders (browser Granted) now (initial [pill])).2 in
  date_time pill = Some T ∧ notified pill = false ∧
  (key (id pill) PreAlert ∉ hasPlayedSound (initial [pill])) ∧
  (T - 300000 < now ≤ T) ∧
  (¬ dispatches (browser Granted) pill PreAlert log) ∧
  dispatch_count 1 PreAlert log = 0%nat ∧
  dispatch_count 1 DueAlert log = 1%nat.
Proof.
  cbv zeta. split_and!.
  - reflexivity.
  - reflexivity.
  - apply not_elem_of_empty.
  - lia.
  - lia.
  - intros [made H]. vm_compute in H. discriminate H.
  - vm_compute. reflexivity.
  - vm_compute. reflexivity.
Qed.

(** C2, amended.  For a cached reminder due at [T] with its DueAlert key
    unmarked, whatever its [notified] flag and its PreAlert key, a tick
    dispatches the DueAlert (the urgent sound and the time-now message) if and
    only if [T <= now < T + 1min]; and over any session in which the reminder
    is not deleted the DueAlert is dispatched at most once. *)
Theorem due_alert_window (b : Browser) (now : Z) (st : State) (r : Reminder) (T : Z) :
  NoDup (id <$> reminders st) → r ∈ reminders st →
  date_time r = Some T →
  key (id r) DueAlert ∉ hasPlayedSound st →
  (dispatches b r DueAlert (checkReminders b now st).2 ↔ T ≤ now < T + 60000) ∧
  (∀ ts, ClearKeys (id r) ∉ ts →
         (dispatch_count (id r) DueAlert (run ts st).2 ≤ 1)%nat).
Proof.
  intros Hnd Hin HT Hk. split.
  - rewrite checkReminders_dispatches, (taken_due_iff now _ r T) by done. tauto.
  - intros ts. apply run_at_most_once.
Qed.

Lemma due_alert_window_witness :
  (dispatches (browser Denied) walk DueAlert
     (checkReminders (browser Denied) 330000 (initial [pill; walk])).2
   ↔ 300000 ≤ 330000 < 300000 + 60000) ∧
  (∀ ts, ClearKeys (id walk) ∉ ts →
         (dispatch_count (id walk) DueAlert (run ts (initial [pill; walk])).2 ≤ 1)%nat).
Proof.
  apply (due_alert_window (browser Denied) 330000 (initial [pill; walk]) walk 300000).
  - apply (bool_decide_unpack _). vm_compute. exact I.
  - right. left.
  - reflexivity.
  - apply not_elem_of_empty.
Defined.

(** C2 as stated fails at both ends of its window: at [now = T + 1min], inside
    [(T, T + 1min]], the tick dispatches nothing; at [now = T], outside it,
    the tick dispatches the DueAlert. *)
Lemma due_alert_bounds_off :
  let T := 300000 in
  let late := (checkReminders (browser Granted) (T + 60000) (initial [pill])).2 in
  let sharp := (checkReminders (browser Granted) T (initial [pill])).2 in
  date_time pill = Some T ∧
  (key (id pill) DueAlert ∉ hasPlayedSound (initial [pill])) ∧
  (T < T + 60000 ≤ T + 60000 ∧ (¬ dispatches (browser Granted) pill DueAlert late)) ∧
  ((¬ T < T) ∧ dispatches (browser Granted) pill DueAlert sharp).
Proof.
  cbv zeta. split_and!.
  - reflexivity.
  - apply not_elem_of_empty.
  - lia.
  - lia.
  - intros [made H]. vm_compute in H. discriminate H.
  - lia.
  - eexists. vm_compute. reflexivity.
Qed.

(** C3.  In a session that does not clear the keys of a reminder, each of its
    keys sees at most one dispatch, and a dispatch records the key.  From a
    state in which the key is recorded, whatever the ticks, the browsers and
    the fate of the acknowledgement requests, nothing is logged for the key:
    no dispatch and no acknowledgement request; and the key stays recorded. *)
Theorem at_most_one_dispatch_per_key (i : Z) (t : Threshold) (ts : list Task)
    (st : State) :
  ClearKeys i ∉ ts →
  (dispatch_count i t (run ts st).2 ≤ 1)%nat ∧
  (dispatch_count i t (run ts st).2 = 1%nat →
     key i t ∈ hasPlayedSound (run ts st).1) ∧
  (key i t ∈ hasPlayedSound st →
     entries_for i t (run ts st).2 = [] ∧
     dispatch_count i t (run ts st).2 = 0%nat ∧
     ack_count i t (run ts st).2 = 0%nat ∧
     key i t ∈ hasPlayedSound (run ts st).1).
Proof.
  intros Hnc. pose proof (run_conserve ts st i t Hnc) as Hc.
  pose proof (run_counts ts st i t) as [Hack Hlen].
  pose proof (marked_le_1 i t (hasPlayedSound (run ts st).1)) as Hle.
  unfold marked in *.
  destruct (bool_decide (key i t ∈ hasPlayedSound (run ts st).1)) eqn:E.
  - apply bool_decide_eq_true in E. split_and!; [lia | done |].
    intros Hk. rewrite bool_decide_eq_true_2 in Hc by done.
    assert (dispatch_count i t (run ts st).2 = 0%nat) as H0 by lia.
    split_and!; [|done| |done].
    + apply length_zero_iff_nil. rewrite Hlen. lia.
    + by rewrite Hack.
  - split_and!; [lia | |].
    + intros H1. destruct (bool_decide (key i t ∈ hasPlayedSound st)); lia.
    + intros Hk. rewrite bool_decide_eq_true_2 in Hc by done. lia.
Qed.

Lemma at_most_one_dispatch_per_key_witness :
  let ts := [Tick (browser Default) 300000; Reload Failed; Tick (browser Default) 310000] in
  (dispatch_count 1 DueAlert (run ts (initial [pill])).2 ≤ 1)%nat ∧
  (dispatch_count 1 DueAlert (run ts (initial [pill])).2 = 1%nat →
     key 1 DueAlert ∈ hasPlayedSound (run ts (initial [pill])).1) ∧
  (key 1 DueAlert ∈ hasPlayedSound (initial [pill]) →
     entries_for 1 DueAlert (run ts (initial [pill])).2 = [] ∧
     dispatch_count 1 DueAlert (run ts (initial [pill])).2 = 0%nat ∧
     ack_count 1 DueAlert (run ts (initial [pill])).2 = 0%nat ∧
     key 1 DueAlert ∈ hasPlayedSound (run ts (initial [pill])).1).
Proof.
  apply (at_most_one_dispatch_per_key 1 DueAlert
           [Tick (browser Default) 300000; Reload Failed; Tick (browser Default) 310000]
           (initial [pill])).
  not_listed.
Defined.

(** C4.  At the failing input the tick dispatches the DueAlert, sends the
    acknowledgement and records the key, as the PreAlert branch does, but
    leaves the cached [notified] flag false. *)
Lemma due_alert_leaves_notified_unset :
  let after := checkReminders (browser Granted) 300000 (initial [pill]) in
  dispatches (browser Granted) pill DueAlert after.2 ∧
  ack_count 1 DueAlert after.2 = 1%nat ∧
  elements (hasPlayedSound after.1) = ["1-now"] ∧
  notified <$> reminders after.1 = [false] ∧
  (let before := checkReminders (browser Granted) 299999 (initial [pill]) in
   dispatches (browser Granted) pill PreAlert before.2 ∧
   ack_count 1 PreAlert before.2 = 1%nat ∧
   elements (hasPlayedSound before.1) = ["1-5min"] ∧
   notified <$> reminders before.1 = [true]).
Proof.
  cbv zeta. split_and!; try (vm_compute; reflexivity);
    eexists; vm_compute; reflexivity.
Qed.

(** C5, amended.  With an empty set and the single cached reminder
    [{id: 1, dueAt: now + 4min}], not notified: the tick at [now + 4min30s]
    dispatches the DueAlert and nothing else, and the ticks at
    [now + 4min40s] and [now + 4min61s] dispatch nothing. *)
Theorem scenario_four_minutes (now : Z) (b1 b2 b3 : Browser) (text : string)
    (memo : option string) (ctx : option AudioContext) :
  let r := {| id := 1; title := text; date_time := Some (now + 240000);
              notes := memo; notified := false |} in
  let st0 := {| reminders := [r]; hasPlayedSound := ∅; audioContext := ctx |} in
  let tick1 := checkReminders b1 (now + 270000) st0 in
  let tick2 := checkReminders b2 (now + 280000) tick1.1 in
  let tick3 := checkReminders b3 (now + 301000) tick2.1 in
  dispatches b1 r DueAlert tick1.2 ∧
  length tick1.2 = 4%nat ∧
  dispatch_count 1 PreAlert tick1.2 = 0%nat ∧
  tick2.2 = [] ∧
  tick3.2 = [].
Proof.
  intros r st0.
  assert (taken (now + 270000) ∅ r = Some DueAlert) as H1.
  { apply (taken_due_iff _ _ r (now + 240000)); [done|].
    split; [lia | apply not_elem_of_empty]. }
  assert (∀ b n st, reminders st = [r] →
            taken n (hasPlayedSound st) r = None →
            checkReminders b n st = (st, [])) as Hnone.
  { intros b n [rs played c] Hrs Ht. simpl in *. subst rs.
    unfold checkReminders. simpl. rewrite visit_unfold, Ht. done. }
  assert (∀ n played, key 1 DueAlert ∈ played → 240000 < n - now →
            taken n played r = None) as Hlate.
  { intros n played Hk Hn. destruct (taken n played r) as [[]|] eqn:E; [..|done].
    - apply (taken_pre_iff _ _ r (now + 240000)) in E; [lia | done].
    - apply (taken_due_iff _ _ r (now + 240000)) in E as [_ E]; done. }
  assert (tick1 := eq_refl (checkReminders b1 (now + 270000) st0)).
  unfold checkReminders at 2 in tick1. simpl in tick1.
  rewrite visit_unfold, H1 in tick1. cbn [fst snd] in tick1.
  cbv zeta. rewrite tick1. cbn [fst snd].
  rewrite (Hnone b2), (Hnone b3); cbn [fst snd reminders hasPlayedSound];
    try done; try (apply Hlate; [set_solver | lia]).
  split_and!; try done.
  eexists. rewrite app_nil_r, entries_for_labelled, decide_True by done.
  apply fmap_effect_labelled.
Qed.

(** C5 as stated fails at its first tick, which dispatches no PreAlert, and
    at its third, which dispatches no DueAlert. *)
Lemma scenario_as_written_fails :
  let now := 0 in
  let r := {| id := 1; title := "pill"; date_time := Some (now + 240000);
              notes := None; notified := false |} in
  let tick1 := checkReminders (browser Granted) (now + 270000) (initial [r]) in
  let tick2 := checkReminders (browser Granted) (now + 280000) tick1.1 in
  let tick3 := checkReminders (browser Granted) (now + 301000) tick2.1 in
  (¬ dispatches (browser Granted) r PreAlert tick1.2) ∧
  (¬ dispatches (browser Granted) r DueAlert tick3.2).
Proof.
  cbv zeta. split; intros [made H]; vm_compute in H; discriminate H.
Qed.

(** C6, amended.  A confirmed deletion whose DELETE request succeeds removes
    both keys of the reminder from the set; when the reload that follows
    succeeds with a list that no longer holds the reminder, it is removed from
    the cache too, and from then on, as long as no later reload returns it, no
    tick logs anything for it: neither alert is dispatched, whether or not
    the PreAlert had fired before the deletion. *)
Theorem deletion_prevents_alerts (i : Z) (st : State) (rs : list Reminder)
    (ts : list Task) :
  i ∉ id <$> rs → never_returned i ts →
  let st' := deleteReminder true (Ok tt) (Ok rs) i st in
  (i ∉ id <$> reminders st') ∧
  (key i PreAlert ∉ hasPlayedSound st') ∧
  (key i DueAlert ∉ hasPlayedSound st') ∧
  (∀ e, e ∈ (run ts st').2 → origin e ≠ i) ∧
  dispatch_count i PreAlert (run ts st').2 = 0%nat ∧
  dispatch_count i DueAlert (run ts st').2 = 0%nat.
Proof.
  intros Hrs Hts st'.
  assert (∀ e, e ∈ (run ts st').2 → origin e ≠ i) as Hnone.
  { by apply run_absent. }
  split_and!; try done.
  - unfold st', deleteReminder, loadReminders, clearKeys. simpl.
    rewrite !elem_of_difference, elem_of_singleton.
    intros [[_ H] _]. by apply H.
  - unfold st', deleteReminder, loadReminders, clearKeys. simpl.
    rewrite !elem_of_difference, !elem_of_singleton.
    intros [_ H]. by apply H.
  - unfold dispatch_count. by rewrite entries_for_absent.
  - unfold dispatch_count. by rewrite entries_for_absent.
Qed.

Lemma deletion_prevents_alerts_witness :
  let ts := [Tick (browser Granted) 100000; Reload (Ok [walk]);
             Tick (browser Granted) 300000] in
  let st' := deleteReminder true (Ok tt) (Ok [walk]) 1 (initial [pill; walk]) in
  (1 ∉ id <$> reminders st') ∧
  (key 1 PreAlert ∉ hasPlayedSound st') ∧
  (key 1 DueAlert ∉ hasPlayedSound st') ∧
  (∀ e, e ∈ (run ts st').2 → origin e ≠ 1) ∧
  dispatch_count 1 PreAlert (run ts st').2 = 0%nat ∧
  dispatch_count 1 DueAlert (run ts st').2 = 0%nat.
Proof.
  apply (deletion_prevents_alerts 1 (initial [pill; walk]) [walk]
           [Tick (browser Granted) 100000; Reload (Ok [walk]);
            Tick (browser Granted) 300000]).
  - apply (bool_decide_unpack _). vm_compute. exact I.
  - intros rs H.
    repeat (apply elem_of_cons in H as [H|H];
            [try discriminate H;
             injection H as ->; apply (bool_decide_unpack _); vm_compute; exact I|]).
    by apply not_elem_of_nil in H.
Defined.

(** C6 as stated fails when the reload after the DELETE request fails: the
    deletion, made before any threshold fired, clears the keys but leaves the
    reminder in the cache, and later ticks dispatch its PreAlert and its
    DueAlert. *)
Lemma stale_cache_after_deletion :
  let st' := deleteReminder true (Ok tt) Failed 1 (initial [pill]) in
  let ts := [Tick (browser Granted) 100000; Tick (browser Granted) 300000] in
  pill ∈ reminders st' ∧
  dispatch_count 1 PreAlert (run ts st').2 = 1%nat ∧
  dispatch_count 1 DueAlert (run ts st').2 = 1%nat.
Proof.
  cbv zeta. split_and!.
  - left.
  - vm_compute. reflexivity.
  - vm_compute. reflexivity.
Qed.

(** C7, amended.  While the permission state is Default (and the browser
    supports notifications), the permission request is invoked once for every
    alert dispatched, so a session asks as many times as it dispatches alerts;
    the start-up prompt asks once more. *)
Theorem permission_requested_per_alert (ts : list Task) (st : State)
    (b : Browser) (now : Z) :
  every_tick (fun b => notification_supported b = true ∧ permission b = Default) ts →
  notification_supported b = true → permission b = Default →
  request_count (run ts st).2 = alert_count (run ts st).2 ∧
  (request_count (initializeApp b now st).1.1.2
   + length (filter (fun c => is_request c = true) (initializeApp b now st).1.2))%nat
  = (alert_count (initializeApp b now st).1.1.2 + 1)%nat.
Proof.
  intros Hts Hs Hp. split; [by apply run_requests|].
  unfold initializeApp.
  pose proof (forEach_requests b now (reminders st) (hasPlayedSound st)
                (audioContext st)) as Hr.
  rewrite <- checkReminders_log, Hs, Hp in Hr.
  destruct (checkReminders b now st) as [st1 log].
  destruct (initAudioContext b (audioContext st1)) as [ctx made].
  cbn [fst snd] in *. rewrite Hr. unfold requestNotificationPermission.
  rewrite Hs, Hp. reflexivity.
Qed.

Lemma permission_requested_per_alert_witness :
  let ts := [Tick (browser Default) 100000; Tick (browser Default) 300000] in
  request_count (run ts (initial [pill; walk])).2
  = alert_count (run ts (initial [pill; walk])).2 ∧
  (request_count (initializeApp (browser Default) 100000 (initial [pill; walk])).1.1.2
   + length (filter (fun c => is_request c = true)
               (initializeApp (browser Default) 100000 (initial [pill; walk])).1.2))%nat
  = (alert_count (initializeApp (browser Default) 100000 (initial [pill; walk])).1.1.2 + 1)%nat.
Proof.
  apply (permission_requested_per_alert
           [Tick (browser Default) 100000; Tick (browser Default) 300000]
           (initial [pill; walk]) (browser Default) 100000).
  - intros b now H.
    repeat (apply elem_of_cons in H as [H|H]; [injection H as -> _; by split|]).
    by apply not_elem_of_nil in H.
  - reflexivity.
  - reflexivity.
Defined.

(** C7 as stated fails: with the permission state Default, one tick that
    dispatches the alerts of two reminders invokes the request twice. *)
Lemma two_alerts_two_requests :
  let log := (checkReminders (browser Default) 100000 (initial [pill; walk])).2 in
  permission (browser Default) = Default ∧
  request_count log = 2%nat ∧
  ¬ (request_count log ≤ 1)%nat.
Proof.
  cbv zeta. split_and!.
  - reflexivity.
  - vm_compute. reflexivity.
  - vm_compute. lia.
Qed.

(** C8.  With the permission state Denied, no session and no tick ever creates
    a desktop notification or issues a permission request; yet a tick inside
    the window of a threshold still plays the sound of that threshold. *)
Theorem denied_permission_keeps_sound (ts : list Task) (st : State)
    (b : Browser) (now : Z) (r : Reminder) (T : Z) :
  every_tick (fun b => permission b = Denied) ts →
  permission b = Denied →
  NoDup (id <$> reminders st) → r ∈ reminders st → date_time r = Some T →
  api_calls (run ts st).2 = [] ∧
  api_calls (checkReminders b now st).2 = [] ∧
  requestNotificationPermission b = [] ∧
  (T - 300000 ≤ now < T → notified r = false →
   key (id r) PreAlert ∉ hasPlayedSound st →
   ∃ made, Build_Entry (id r) PreAlert (PlayNotificationSound "reminder" made)
             ∈ (checkReminders b now st).2) ∧
  (T ≤ now < T + 60000 →
   key (id r) DueAlert ∉ hasPlayedSound st →
   ∃ made, Build_Entry (id r) DueAlert (PlayNotificationSound "urgent" made)
             ∈ (checkReminders b now st).2).
Proof.
  intros Hts Hd Hnd Hin HT. split_and!.
  - by apply run_denied.
  - rewrite checkReminders_log. by apply forEach_denied.
  - unfold requestNotificationPermission. rewrite Hd.
    by destruct (notification_supported b).
  - intros Hw Hn Hk. apply (dispatches_sound b r PreAlert).
    apply checkReminders_dispatches; [done..|].
    by apply (taken_pre_iff now _ r T).
  - intros Hw Hk. apply (dispatches_sound b r DueAlert).
    apply checkReminders_dispatches; [done..|].
    by apply (taken_due_iff now _ r T).
Qed.

Lemma denied_permission_keeps_sound_witness :
  let ts := [Tick (browser Denied) 100000; Tick (browser Denied) 300000] in
  let st := initial [pill; walk] in
  api_calls (run ts st).2 = [] ∧
  api_calls (checkReminders (browser Denied) 300000 st).2 = [] ∧
  requestNotificationPermission (browser Denied) = [] ∧
  (300000 - 300000 ≤ 300000 < 300000 → notified walk = false →
   key (id walk) PreAlert ∉ hasPlayedSound st →
   ∃ made, Build_Entry (id walk) PreAlert (PlayNotificationSound "reminder" made)
             ∈ (checkReminders (browser Denied) 300000 st).2) ∧
  (300000 ≤ 300000 < 300000 + 60000 →
   key (id walk) DueAlert ∉ hasPlayedSound st →
   ∃ made, Build_Entry (id walk) DueAlert (PlayNotificationSound "urgent" made)
             ∈ (checkReminders (browser Denied) 300000 st).2).
Proof.
  apply (denied_permission_keeps_sound
           [Tick (browser Denied) 100000; Tick (browser Denied) 300000]
           (initial [pill; walk]) (browser Denied) 300000 walk 300000).
  - intros b now H.
    repeat (apply elem_of_cons in H as [H|H]; [by injection H as -> _|]).
    by apply not_elem_of_nil in H.
  - reflexivity.
  - apply (bool_decide_unpack _). vm_compute. exact I.
  - right. left.
  - reflexivity.
Defined.

(** C10.  A cached reminder whose [notified] flag is set never has its
    PreAlert dispatched, in any session whose reloads keep it notified; its
    DueAlert is still dispatched by a tick with [T <= now < T + 1min] when
    the DueAlert key is unmarked. *)
Theorem notified_gates_only_pre_alert (ts : list Task) (st : State) (r : Reminder) :
  NoDup (id <$> reminders st) → r ∈ reminders st → notified r = true →
  reloads_notified (id r) ts →
  entries_for (id r) PreAlert (run ts st).2 = [] ∧
  dispatch_count (id r) PreAlert (run ts st).2 = 0%nat ∧
  (∀ b now T, date_time r = Some T →
     key (id r) DueAlert ∉ hasPlayedSound st →
     T ≤ now < T + 60000 →
     dispatches b r DueAlert (checkReminders b now st).2).
Proof.
  intros Hnd Hin Hn Hre.
  assert (entries_for (id r) PreAlert (run ts st).2 = []) as Hnone.
  { apply run_no_pre; [|done]. intros r' Hr' Hid.
    by rewrite (same_id_same_reminder (reminders st) r r'). }
  split_and!; [done| |].
  - unfold dispatch_count. by rewrite Hnone.
  - intros b now T HT Hk Hw. apply checkReminders_dispatches; [done..|].
    by apply (taken_due_iff now _ r T).
Qed.

Lemma notified_gates_only_pre_alert_witness :
  let seen := {| id := 7; title := "refill"; date_time := Some 300000;
                 notes := None; notified := true |} in
  let st := initial [pill; seen] in
  let ts := [Tick (browser Granted) 100000; Reload Failed;
             Tick (browser Granted) 200000] in
  entries_for (id seen) PreAlert (run ts st).2 = [] ∧
  dispatch_count (id seen) PreAlert (run ts st).2 = 0%nat ∧
  (∀ b now T, date_time seen = Some T →
     key (id seen) DueAlert ∉ hasPlayedSound st →
     T ≤ now < T + 60000 →
     dispatches b seen DueAlert (checkReminders b now st).2).
Proof.
  apply (notified_gates_only_pre_alert
           [Tick (browser Granted) 100000; Reload Failed; Tick (browser Granted) 200000]
           (initial [pill; {| id := 7; title := "refill"; date_time := Some 300000;
                            notes := None; notified := true |}])).
  - apply (bool_decide_unpack _). vm_compute. exact I.
  - right. left.
  - reflexivity.
  - intros rs x H.
    repeat (apply elem_of_cons in H as [H|H]; [discriminate H|]).
    by apply not_elem_of_nil in H.
Defined.

(** * Further properties of the scheduler *)

(** ** One reminder through a tick *)

Lemma taken_iff (now : Z) (played : gset string) (r : Reminder) (t : Threshold) :
  taken now played r = Some t ↔ in_test t now r = true ∧ ready t played r.
Proof.
  unfold ready, taken, in_test. destruct t.
  - destruct (in_pre_test now r) eqn:Epre, (notified r) eqn:En,
      (decide (key (id r) PreAlert ∈ played)) as [Hk|Hk];
      rewrite ?(bool_decide_eq_true_2 _ Hk), ?(bool_decide_eq_false_2 _ Hk); simpl;
      try destruct (in_due_test now r && _); intuition congruence.
  - destruct (in_due_test now r) eqn:Edue.
    + assert (in_pre_test now r = false) as ->.
      { destruct (in_pre_test now r) eqn:Epre; [|done].
        apply tests_exclusive in Epre. congruence. }
      destruct (decide (key (id r) DueAlert ∈ played)) as [Hk|Hk];
        rewrite ?(bool_decide_eq_true_2 _ Hk), ?(bool_decide_eq_false_2 _ Hk); simpl;
        intuition congruence.
    + rewrite andb_false_l.
      destruct (in_pre_test now r && _ && _); intuition congruence.
Qed.

Lemma in_test_date (t : Threshold) (now : Z) (r r' : Reminder) :
  date_time r' = date_time r → in_test t now r' = in_test t now r.
Proof. intros H. unfold in_test, in_pre_test, in_due_test. by rewrite H. Qed.

Lemma in_test_exclusive (now : Z) (r : Reminder) (t u : Threshold) :
  in_test t now r = true → in_test u now r = true → t = u.
Proof.
  destruct t, u; simpl; intros H1 H2; try done.
  - apply tests_exclusive in H1. congruence.
  - apply tests_exclusive in H2. congruence.
Qed.

Lemma after_visit_fields (t : Threshold) (r : Reminder) :
  id (after_visit t r) = id r ∧ date_time (after_visit t r) = date_time r.
Proof. by destruct t. Qed.


Lemma visited_fields (now : Z) (played : gset string) (r : Reminder) :
  id (visited now played r) = id r ∧
  date_time (visited now played r) = date_time r.
Proof.
  unfold visited. destruct (taken now played r) as [t|]; [|done].
  apply after_visit_fields.
Qed.

Lemma visited_unless_pre (now : Z) (played : gset string) (r : Reminder) :
  taken now played r ≠ Some PreAlert → visited now played r = r.
Proof. unfold visited. by destruct (taken now played r) as [[]|]. Qed.

Section MoreTickFacts.

Variable b : Browser.
Variable now : Z.

(** With distinct ids, the reminder a tick leaves in the cache is the
    visited one. *)
Lemma forEach_member (rs : list Reminder) (played : gset string)
    (ctx : option AudioContext) (r : Reminder) :
  NoDup (id <$> rs) → r ∈ rs →
  visited now played r ∈ (forEach b now rs played ctx).1.1.1.
Proof.
  revert played ctx. induction rs as [|r0 rs IH]; intros played ctx Hnd Hin.
  - by apply not_elem_of_nil in Hin.
  - rewrite fmap_cons in Hnd. apply NoDup_cons in Hnd as [Hfresh Hnd]. simpl.
    pose proof (visit_unfold b now played ctx r0) as Hv.
    pose proof (fun u => visit_played_other b now played ctx r0 (id r) u) as Hp.
    destruct (visit b now played ctx r0) as [[[r' played1] ctx1] log1].
    specialize (IH played1 ctx1 Hnd).
    destruct (forEach b now rs played1 ctx1) as [[[rs' played2] ctx2] log2].
    cbn [fst snd] in *.
    apply elem_of_cons in Hin as [->|Hin].
    + unfold visited. destruct (taken now played r0); simplify_eq; left.
    + assert (id r0 ≠ id r) as Hne.
      { intros Heq. apply Hfresh. rewrite Heq. by apply list_elem_of_fmap_2. }
      right. unfold visited in *.
      rewrite <- (taken_ext now played played1 r (fun u => Hp u Hne)). by apply IH.
Qed.

Lemma checkReminders_member (st : State) (r : Reminder) :
  NoDup (id <$> reminders st) → r ∈ reminders st →
  visited now (hasPlayedSound st) r ∈ reminders (checkReminders b now st).1.
Proof. rewrite checkReminders_cache. apply forEach_member. Qed.

Lemma checkReminders_NoDup (st : State) :
  NoDup (id <$> reminders st) →
  NoDup (id <$> reminders (checkReminders b now st).1).
Proof. by rewrite checkReminders_cache, forEach_ids. Qed.

(** The key of a cached reminder is in the set after a tick exactly when it
    was there before or the tick took its branch. *)
Lemma checkReminders_key (st : State) (r : Reminder) (t : Threshold) :
  NoDup (id <$> reminders st) → r ∈ reminders st →
  key (id r) t ∈ hasPlayedSound (checkReminders b now st).1 ↔
  key (id r) t ∈ hasPlayedSound st ∨ taken now (hasPlayedSound st) r = Some t.
Proof.
  intros Hnd Hin.
  pose proof (forEach_conserve b now (reminders st) (hasPlayedSound st)
                (audioContext st) (id r) t) as Hc.
  rewrite <- checkReminders_log, <- checkReminders_played in Hc.
  rewrite (checkReminders_dispatch_count b now st r t Hnd Hin) in Hc.
  unfold marked in Hc.
  destruct (decide (taken now (hasPlayedSound st) r = Some t)) as [Ht|Ht].
  - pose proof (taken_unmarked _ _ _ _ Ht) as Hk.
    rewrite (bool_decide_eq_false_2 _ Hk) in Hc.
    destruct (decide (key (id r) t ∈ hasPlayedSound (checkReminders b now st).1))
      as [Hk'|Hk'].
    + tauto.
    + rewrite (bool_decide_eq_false_2 _ Hk') in Hc. lia.
  - destruct (decide (key (id r) t ∈ hasPlayedSound st)) as [Hk|Hk];
      destruct (decide (key (id r) t ∈ hasPlayedSound (checkReminders b now st).1))
        as [Hk'|Hk'];
      rewrite ?(bool_decide_eq_true_2 _ Hk), ?(bool_decide_eq_false_2 _ Hk),
        ?(bool_decide_eq_true_2 _ Hk'), ?(bool_decide_eq_false_2 _ Hk') in Hc;
      try lia; tauto.
Qed.

End MoreTickFacts.

(** ** One reminder through a session of ticks *)

Lemma run_ticks_cons (b : Browser) (now : Z) (sess : list (Browser * Z))
    (st : State) :
  run (ticks ((b, now) :: sess)) st =
  ((run (ticks sess) (checkReminders b now st).1).1,
   (checkReminders b now st).2 ++ (run (ticks sess) (checkReminders b now st).1).2).
Proof.
  unfold ticks. rewrite fmap_cons. cbn [run step fst snd].
  destruct (checkReminders b now st) as [st1 log1]. cbn [fst snd].
  by destruct (run _ st1) as [st2 log2].
Qed.

Lemma existsb_in_test (t : Threshold) (sess : list (Browser * Z))
    (r r' : Reminder) :
  date_time r' = date_time r →
  existsb (fun p => in_test t p.2 r') sess = existsb (fun p => in_test t p.2 r) sess.
Proof.
  intros H. induction sess as [|p sess IH]; [done|].
  cbn [existsb]. by rewrite IH, (in_test_date t p.2 r r').
Qed.

Lemma ticks_never_clear (sess : list (Browser * Z)) (i : Z) :
  ClearKeys i ∉ ticks sess.
Proof.
  unfold ticks. intros (p & Hp & _)%list_elem_of_fmap. discriminate Hp.
Qed.

(** No tick in the test of branch [t]: the alert is never dispatched. *)
Lemma session_none (t : Threshold) (sess : list (Browser * Z)) (st : State)
    (r : Reminder) :
  NoDup (id <$> reminders st) → r ∈ reminders st →
  (∀ p, p ∈ sess → in_test t p.2 r = false) →
  dispatch_count (id r) t (run (ticks sess) st).2 = 0%nat.
Proof.
  revert st r. induction sess as [|[b now] sess IH]; intros st r Hnd Hin Hout.
  - done.
  - rewrite run_ticks_cons. cbn [fst snd]. rewrite dispatch_count_app.
    rewrite (checkReminders_dispatch_count b now st r t Hnd Hin).
    assert (taken now (hasPlayedSound st) r ≠ Some t) as Hnt.
    { intros [Hin_t _]%taken_iff.
      assert (in_test t (b, now).2 r = false) as Ho by (apply Hout; left).
      cbn [snd] in Ho. congruence. }
    rewrite decide_False by done.
    pose proof (visited_fields now (hasPlayedSound st) r) as [Hid Hdate].
    rewrite <- Hid. apply IH.
    + by apply checkReminders_NoDup.
    + by apply checkReminders_member.
    + intros p Hp. rewrite (in_test_date _ _ r) by done. apply Hout. by right.
Qed.

(** A reminder whose branch [t] is ready: the alert is dispatched once if
    some tick passes the test of the branch, and never otherwise. *)
Lemma session_count (t : Threshold) (sess : list (Browser * Z)) (st : State)
    (r : Reminder) :
  NoDup (id <$> reminders st) → r ∈ reminders st →
  ready t (hasPlayedSound st) r →
  dispatch_count (id r) t (run (ticks sess) st).2 =
    if existsb (fun p => in_test t p.2 r) sess then 1%nat else 0%nat.
Proof.
  revert st r. induction sess as [|[b now] sess IH]; intros st r Hnd Hin Hready.
  - done.
  - rewrite run_ticks_cons. cbn [fst snd existsb]. rewrite dispatch_count_app.
    rewrite (checkReminders_dispatch_count b now st r t Hnd Hin).
    destruct (in_test t now r) eqn:Etest.
    + assert (taken now (hasPlayedSound st) r = Some t) as Ht by (by apply taken_iff).
      rewrite decide_True by done. simpl.
      assert (key (id r) t ∈ hasPlayedSound (checkReminders b now st).1) as Hk.
      { apply checkReminders_key; auto. }
      pose proof (run_conserve (ticks sess) (checkReminders b now st).1 (id r) t
                    (ticks_never_clear sess (id r))) as Hc.
      unfold marked in Hc. rewrite (bool_decide_eq_true_2 _ Hk) in Hc.
      destruct (bool_decide _) in Hc; lia.
    + assert (taken now (hasPlayedSound st) r ≠ Some t) as Hnt.
      { intros [Hin_t _]%taken_iff. congruence. }
      rewrite decide_False by done. simpl.
      pose proof (visited_fields now (hasPlayedSound st) r) as [Hid Hdate].
      assert (visited now (hasPlayedSound st) r = r ∨ t = DueAlert) as Hsame.
      { destruct t; [left | by right]. by apply visited_unless_pre. }
      rewrite <- Hid.
      rewrite (IH (checkReminders b now st).1 (visited now (hasPlayedSound st) r)).
      * by rewrite (existsb_in_test t sess r).
      * by apply checkReminders_NoDup.
      * by apply checkReminders_member.
      * destruct Hready as [Hk Hn]. split.
        -- rewrite Hid. rewrite checkReminders_key by done. tauto.
        -- intros ->. destruct Hsame as [->|]; [auto | done].
Qed.

Lemma sampled_iff (t : Threshold) (sess : list (Browser * Z)) (r : Reminder) :
  existsb (fun p => in_test t p.2 r) sess = true ↔
  ∃ b now, (b, now) ∈ sess ∧ in_test t now r = true.
Proof.
  rewrite existsb_exists. split.
  - intros ([b now] & Hin%list_elem_of_In & Ht). by exists b, now.
  - intros (b & now & Hin%list_elem_of_In & Ht). by exists (b, now).
Qed.

(** X1.  Over a session of ticks, the PreAlert of a cached reminder due at
    [T], not notified and with its key unmarked, is dispatched exactly once if
    some tick reads a clock in [T - 5min <= now < T], and never if none does:
    a window that no tick samples is lost, and several ticks in the window
    still give one alert. *)
Theorem pre_alert_iff_window_sampled (sess : list (Browser * Z)) (st : State)
    (r : Reminder) (T : Z) :
  NoDup (id <$> reminders st) → r ∈ reminders st →
  date_time r = Some T → notified r = false →
  key (id r) PreAlert ∉ hasPlayedSound st →
  (dispatch_count (id r) PreAlert (run (ticks sess) st).2 = 1%nat ↔
   ∃ b now, (b, now) ∈ sess ∧ T - 300000 ≤ now < T) ∧
  (dispatch_count (id r) PreAlert (run (ticks sess) st).2 = 0%nat ↔
   ∀ b now, (b, now) ∈ sess → ¬ (T - 300000 ≤ now < T)).
Proof.
  intros Hnd Hin HT Hn Hk.
  rewrite (session_count PreAlert sess st r Hnd Hin) by (by split).
  pose proof (sampled_iff PreAlert sess r) as Hs.
  destruct (existsb _ sess).
  - destruct (proj1 Hs eq_refl) as (b & now & Hp & Ht).
    apply (in_pre_test_spec now r T HT) in Ht. split.
    + split; [intros _; by exists b, now | done].
    + split; [done|]. intros Hall. by destruct (Hall b now).
  - split.
    + split; [done|]. intros (b & now & Hp & Ht).
      apply (in_pre_test_spec now r T HT) in Ht.
      assert (false = true) as Hf; [|done].
      apply Hs. by exists b, now.
    + split; [|done]. intros _ b now Hp Ht.
      apply (in_pre_test_spec now r T HT) in Ht.
      assert (false = true) as Hf; [|done].
      apply Hs. by exists b, now.
Qed.

Lemma pre_alert_iff_window_sampled_witness :
  let sess := [(browser Granted, 0); (browser Granted, 60000);
               (browser Denied, 120000)] in
  (dispatch_count (id pill) PreAlert (run (ticks sess) (initial [pill; walk])).2 = 1%nat ↔
   ∃ b now, (b, now) ∈ sess ∧ 300000 - 300000 ≤ now < 300000) ∧
  (dispatch_count (id pill) PreAlert (run (ticks sess) (initial [pill; walk])).2 = 0%nat ↔
   ∀ b now, (b, now) ∈ sess → ¬ (300000 - 300000 ≤ now < 300000)).
Proof.
  apply (pre_alert_iff_window_sampled
           [(browser Granted, 0); (browser Granted, 60000); (browser Denied, 120000)]
           (initial [pill; walk]) pill 300000).
  - apply (bool_decide_unpack _). vm_compute. exact I.
  - left.
  - reflexivity.
  - reflexivity.
  - apply not_elem_of_empty.
Defined.

(** X2.  Over a session of ticks, the DueAlert of a cached reminder due at
    [T] with its key unmarked is dispatched exactly once if some tick reads a
    clock in [T <= now < T + 1min], and never if none does, whatever happened
    to its PreAlert. *)
Theorem due_alert_iff_window_sampled (sess : list (Browser * Z)) (st : State)
    (r : Reminder) (T : Z) :
  NoDup (id <$> reminders st) → r ∈ reminders st →
  date_time r = Some T →
  key (id r) DueAlert ∉ hasPlayedSound st →
  (dispatch_count (id r) DueAlert (run (ticks sess) st).2 = 1%nat ↔
   ∃ b now, (b, now) ∈ sess ∧ T ≤ now < T + 60000) ∧
  (dispatch_count (id r) DueAlert (run (ticks sess) st).2 = 0%nat ↔
   ∀ b now, (b, now) ∈ sess → ¬ (T ≤ now < T + 60000)).
Proof.
  intros Hnd Hin HT Hk.
  rewrite (session_count DueAlert sess st r Hnd Hin) by (by split).
  pose proof (sampled_iff DueAlert sess r) as Hs.
  destruct (existsb _ sess).
  - destruct (proj1 Hs eq_refl) as (b & now & Hp & Ht).
    apply (in_due_test_spec now r T HT) in Ht. split.
    + split; [intros _; by exists b, now | done].
    + split; [done|]. intros Hall. by destruct (Hall b now).
  - split.
    + split; [done|]. intros (b & now & Hp & Ht).
      apply (in_due_test_spec now r T HT) in Ht.
      assert (false = true) as Hf; [|done].
      apply Hs. by exists b, now.
    + split; [|done]. intros _ b now Hp Ht.
      apply (in_due_test_spec now r T HT) in Ht.
      assert (false = true) as Hf; [|done].
      apply Hs. by exists b, now.
Qed.

Lemma due_alert_iff_window_sampled_witness :
  let sess := [(browser Granted, 240000); (browser Granted, 300000);
               (browser Granted, 360000)] in
  (dispatch_count (id walk) DueAlert (run (ticks sess) (initial [pill; walk])).2 = 1%nat ↔
   ∃ b now, (b, now) ∈ sess ∧ 300000 ≤ now < 300000 + 60000) ∧
  (dispatch_count (id walk) DueAlert (run (ticks sess) (initial [pill; walk])).2 = 0%nat ↔
   ∀ b now, (b, now) ∈ sess → ¬ (300000 ≤ now < 300000 + 60000)).
Proof.
  apply (due_alert_iff_window_sampled
           [(browser Granted, 240000); (browser Granted, 300000);
            (browser Granted, 360000)]
           (initial [pill; walk]) walk 300000).
  - apply (bool_decide_unpack _). vm_compute. exact I.
  - right. left.
  - reflexivity.
  - apply not_elem_of_empty.
Defined.

Lemma in_test_invalid (t : Threshold) (now : Z) (r : Reminder) :
  date_time r = None → in_test t now r = false.
Proof.
  intros H. destruct t; unfold in_test, in_pre_test, in_due_test; by rewrite H.
Qed.

(** X3.  A cached reminder whose date does not parse never alerts: no session
    of ticks logs anything for either of its keys. *)
Theorem invalid_date_never_alerts (sess : list (Browser * Z)) (st : State)
    (r : Reminder) (t : Threshold) :
  NoDup (id <$> reminders st) → r ∈ reminders st →
  date_time r = None →
  entries_for (id r) t (run (ticks sess) st).2 = [].
Proof.
  intros Hnd Hin Hd. apply length_zero_iff_nil.
  rewrite (proj2 (run_counts (ticks sess) st (id r) t)).
  rewrite (session_none t sess st r Hnd Hin); [done|].
  intros p _. by apply in_test_invalid.
Qed.

Lemma invalid_date_never_alerts_witness :
  let blank := {| id := 3; title := "scan"; date_time := None; notes := None;
                  notified := false |} in
  entries_for (id blank) DueAlert
    (run (ticks [(browser Granted, 0); (browser Granted, 300000)])
         (initial [pill; blank])).2 = [].
Proof.
  apply (invalid_date_never_alerts
           [(browser Granted, 0); (browser Granted, 300000)]
           (initial [pill; {| id := 3; title := "scan"; date_time := None;
                              notes := None; notified := false |}])).
  - apply (bool_decide_unpack _). vm_compute. exact I.
  - right. left.
  - reflexivity.
Defined.

(** X4.  One tick never dispatches both alerts of a cached reminder. *)
Theorem one_alert_per_reminder_per_tick (b : Browser) (now : Z) (st : State)
    (r : Reminder) :
  NoDup (id <$> reminders st) → r ∈ reminders st →
  (dispatch_count (id r) PreAlert (checkReminders b now st).2
   + dispatch_count (id r) DueAlert (checkReminders b now st).2 ≤ 1)%nat.
Proof.
  intros Hnd Hin.
  rewrite !(checkReminders_dispatch_count b now st r) by done.
  destruct (taken now (hasPlayedSound st) r) as [[]|];
    repeat (destruct (decide _) as [?|?]; try done); lia.
Qed.

Lemma one_alert_per_reminder_per_tick_witness :
  (dispatch_count (id pill) PreAlert
     (checkReminders (browser Granted) 299999 (initial [pill; walk])).2
   + dispatch_count (id pill) DueAlert
       (checkReminders (browser Granted) 299999 (initial [pill; walk])).2 ≤ 1)%nat.
Proof.
  apply (one_alert_per_reminder_per_tick (browser Granted) 299999
           (initial [pill; walk]) pill).
  - apply (bool_decide_unpack _). vm_compute. exact I.
  - left.
Defined.

(** The cache after a session of ticks still holds distinct ids and a
    reminder with the id and the date of [r]. *)
Lemma session_cached (sess : list (Browser * Z)) (st : State) (r : Reminder) :
  NoDup (id <$> reminders st) → r ∈ reminders st →
  NoDup (id <$> reminders (run (ticks sess) st).1) ∧
  ∃ r', r' ∈ reminders (run (ticks sess) st).1 ∧
        id r' = id r ∧ date_time r' = date_time r.
Proof.
  revert st r. induction sess as [|[b now] sess IH]; intros st r Hnd Hin.
  - split; [done|]. by exists r.
  - rewrite run_ticks_cons. cbn [fst].
    pose proof (visited_fields now (hasPlayedSound st) r) as [Hid Hdate].
    destruct (IH (checkReminders b now st).1 (visited now (hasPlayedSound st) r))
      as [Hnd' (r' & Hr' & Hid' & Hd')].
    + by apply checkReminders_NoDup.
    + by apply checkReminders_member.
    + split; [done|]. exists r'. split_and!; [done|congruence..].
Qed.

(** X5.  With a clock that does not go back, the PreAlert of a cached
    reminder is never dispatched after its DueAlert: once a session of ticks
    has dispatched the DueAlert, no later tick dispatches the PreAlert. *)
Theorem no_pre_alert_after_due_alert (sess1 sess2 : list (Browser * Z))
    (st : State) (r : Reminder) (T : Z) :
  NoDup (id <$> reminders st) → r ∈ reminders st →
  date_time r = Some T →
  (∀ p1 p2, p1 ∈ sess1 → p2 ∈ sess2 → p1.2 ≤ p2.2) →
  dispatch_count (id r) DueAlert (run (ticks sess1) st).2 ≠ 0%nat →
  dispatch_count (id r) PreAlert
    (run (ticks sess2) (run (ticks sess1) st).1).2 = 0%nat.
Proof.
  intros Hnd Hin HT Hmono Hdue.
  assert (∃ p1, p1 ∈ sess1 ∧ T ≤ p1.2) as (p1 & Hp1 & Hlate).
  { destruct (existsb (fun p => in_test DueAlert p.2 r) sess1) eqn:E.
    - apply sampled_iff in E as (b & now & Hp & Ht).
      apply (in_due_test_spec now r T HT) in Ht. exists (b, now). split; [done|].
      cbn [snd]. lia.
    - exfalso. apply Hdue. apply session_none; [done..|].
      intros p Hp. destruct (in_test DueAlert p.2 r) eqn:Et; [|done].
      assert (false = true) as Hf; [|done].
      rewrite <- E. apply sampled_iff. destruct p as [b now]. by exists b, now. }
  destruct (session_cached sess1 st r Hnd Hin) as [Hnd' (r' & Hr' & Hid & Hd)].
  rewrite <- Hid. apply session_none; [done..|].
  intros p2 Hp2. rewrite (in_test_date PreAlert p2.2 r r' Hd).
  destruct (in_test PreAlert p2.2 r) eqn:Et; [|done].
  apply (in_pre_test_spec p2.2 r T HT) in Et.
  specialize (Hmono p1 p2 Hp1 Hp2). lia.
Qed.

Lemma no_pre_alert_after_due_alert_witness :
  dispatch_count (id pill) PreAlert
    (run (ticks [(browser Granted, 330000); (browser Granted, 390000)])
         (run (ticks [(browser Granted, 240000); (browser Granted, 300000)])
              (initial [pill])).1).2 = 0%nat.
Proof.
  apply (no_pre_alert_after_due_alert
           [(browser Granted, 240000); (browser Granted, 300000)]
           [(browser Granted, 330000); (browser Granted, 390000)]
           (initial [pill]) pill 300000).
  - apply (bool_decide_unpack _). vm_compute. exact I.
  - left.
  - reflexivity.
  - intros p1 p2 H1 H2.
    repeat (apply elem_of_cons in H1 as [->|H1]);
      try (by apply not_elem_of_nil in H1);
      repeat (apply elem_of_cons in H2 as [->|H2]);
      try (by apply not_elem_of_nil in H2); cbn [snd]; lia.
  - vm_compute. lia.
Defined.

(** X7.  Reminders do not interfere: whether a tick dispatches an alert of a
    cached reminder depends only on that reminder and on its own two keys,
    not on what else is in the cache or in the set. *)
Theorem reminders_do_not_interfere (b : Browser) (now : Z) (st st' : State)
    (r : Reminder) (t : Threshold) :
  NoDup (id <$> reminders st) → r ∈ reminders st →
  NoDup (id <$> reminders st') → r ∈ reminders st' →
  (∀ u, key (id r) u ∈ hasPlayedSound st' ↔ key (id r) u ∈ hasPlayedSound st) →
  dispatches b r t (checkReminders b now st').2 ↔
  dispatches b r t (checkReminders b now st).2.
Proof.
  intros Hnd Hin Hnd' Hin' Hkeys.
  rewrite !checkReminders_dispatches by done.
  by rewrite (taken_ext now (hasPlayedSound st) (hasPlayedSound st') r Hkeys).
Qed.

Lemma reminders_do_not_interfere_witness :
  let crowded := {| reminders := [walk; pill];
                    hasPlayedSound := {[ key 2 PreAlert ]};
                    audioContext := None |} in
  dispatches (browser Granted) pill PreAlert
    (checkReminders (browser Granted) 100000 crowded).2 ↔
  dispatches (browser Granted) pill PreAlert
    (checkReminders (browser Granted) 100000 (initial [pill])).2.
Proof.
  apply (reminders_do_not_interfere (browser Granted) 100000 (initial [pill])
           {| reminders := [walk; pill]; hasPlayedSound := {[ key 2 PreAlert ]};
              audioContext := None |} pill PreAlert).
  - apply (bool_decide_unpack _). vm_compute. exact I.
  - left.
  - apply (bool_decide_unpack _). vm_compute. exact I.
  - right. left.
  - intros u. destruct u; split; intros H; exfalso; revert H;
      apply (bool_decide_unpack _); vm_compute; exact I.
Defined.

(** ** Ticking twice at the same instant *)

Lemma taken_mono (now : Z) (played played' : gset string) (r : Reminder) :
  taken now played r = None → played ⊆ played' → taken now played' r = None.
Proof.
  intros Hnone Hsub. destruct (taken now played' r) as [t|] eqn:E; [|done].
  apply taken_iff in E as [Ht [Hk Hn]].
  assert (taken now played r = Some t) as Hsome; [|congruence].
  apply taken_iff. split; [done|]. split; [|done].
  intros Hin. apply Hk. by apply Hsub.
Qed.

Section Settling.

Variable b : Browser.
Variable now : Z.

Lemma visit_played_mono (played : gset string) (ctx : option AudioContext)
    (r : Reminder) :
  played ⊆ (visit b now played ctx r).1.1.2.
Proof.
  rewrite visit_unfold. destruct (taken now played r); cbn [fst snd]; set_solver.
Qed.

(** After its visit a reminder passes neither test-and-guard again. *)
Lemma visit_settles (played : gset string) (ctx : option AudioContext)
    (r : Reminder) :
  taken now (visit b now played ctx r).1.1.2 (visit b now played ctx r).1.1.1 = None.
Proof.
  rewrite visit_unfold. destruct (taken now played r) as [t|] eqn:Et; cbn [fst snd].
  - destruct (taken now _ (after_visit t r)) as [u|] eqn:Eu; [|done].
    exfalso. apply taken_iff in Et as [Ht _]. apply taken_iff in Eu as [Hu [Hk _]].
    destruct (after_visit_fields t r) as [Hid Hdate].
    rewrite (in_test_date u now r _ Hdate) in Hu.
    assert (u = t) as -> by (by apply (in_test_exclusive now r)).
    apply Hk. rewrite Hid. set_solver.
  - done.
Qed.

Lemma forEach_played_mono (rs : list Reminder) (played : gset string)
    (ctx : option AudioContext) :
  played ⊆ (forEach b now rs played ctx).1.1.2.
Proof.
  revert played ctx. induction rs as [|r rs IH]; intros played ctx; simpl; [done|].
  pose proof (visit_played_mono played ctx r) as Hv.
  destruct (visit b now played ctx r) as [[[r' played1] ctx1] log1].
  specialize (IH played1 ctx1).
  destruct (forEach b now rs played1 ctx1) as [[[rs' played2] ctx2] log2].
  cbn [fst snd] in *. set_solver.
Qed.

Lemma forEach_settles (rs : list Reminder) (played : gset string)
    (ctx : option AudioContext) (r' : Reminder) :
  r' ∈ (forEach b now rs played ctx).1.1.1 →
  taken now (forEach b now rs played ctx).1.1.2 r' = None.
Proof.
  revert played ctx. induction rs as [|r rs IH]; intros played ctx; simpl.
  - by intros ?%not_elem_of_nil.
  - pose proof (visit_settles played ctx r) as Hv.
    destruct (visit b now played ctx r) as [[[r1 played1] ctx1] log1].
    pose proof (forEach_played_mono rs played1 ctx1) as Hm.
    specialize (IH played1 ctx1).
    destruct (forEach b now rs played1 ctx1) as [[[rs' played2] ctx2] log2].
    cbn [fst snd] in *. intros [->|Hin]%elem_of_cons.
    + by apply (taken_mono now played1).
    + by apply IH.
Qed.

End Settling.

Lemma forEach_settled (b : Browser) (now : Z) (rs : list Reminder)
    (played : gset string) (ctx : option AudioContext) :
  (∀ r, r ∈ rs → taken now played r = None) →
  forEach b now rs played ctx = (rs, played, ctx, []).
Proof.
  induction rs as [|r rs IH]; intros Hall; simpl; [done|].
  rewrite visit_unfold, (Hall r) by left.
  rewrite IH; [done|]. intros x Hx. apply Hall. by right.
Qed.

(** X6.  A tick is idempotent at a given instant: a second tick reading the
    same clock, in whatever browser, logs nothing and leaves the cache, the
    set and the audio context as the first tick left them. *)
Theorem second_tick_at_same_instant_is_silent (b b' : Browser) (now : Z)
    (st : State) :
  checkReminders b' now (checkReminders b now st).1 =
  ((checkReminders b now st).1, []).
Proof.
  pose proof (forEach_settles b now (reminders st) (hasPlayedSound st)
                (audioContext st)) as Hs.
  unfold checkReminders at 2 3.
  destruct (forEach b now (reminders st) (hasPlayedSound st) (audioContext st))
    as [[[rs played] ctx] log].
  cbn [fst snd] in *. unfold checkReminders. cbn [reminders hasPlayedSound audioContext].
  by rewrite (forEach_settled b' now rs played ctx Hs).
Qed.

(** ** Notifications once permission is granted *)

Lemma create_count_app (l1 l2 : list Entry) :
  create_count (l1 ++ l2) = (create_count l1 + create_count l2)%nat.
Proof. unfold create_count. by rewrite notification_calls_app, filter_app, length_app. Qed.

Lemma sendNotification_creates (b : Browser) (text body : string) :
  length (filter (fun c => is_create c = true) (sendNotification b text body)) =
    if notification_supported b && bool_decide (permission b = Granted)
    then 1%nat else 0%nat.
Proof.
  unfold sendNotification.
  by destruct (notification_supported b), (permission b).
Qed.

Lemma visit_creates (b : Browser) (now : Z) (played : gset string)
    (ctx : option AudioContext) (r : Reminder) :
  create_count (visit b now played ctx r).2 =
    if notification_supported b && bool_decide (permission b = Granted)
    then alert_count (visit b now played ctx r).2 else 0%nat.
Proof.
  rewrite visit_unfold. destruct (taken now played r) as [t|]; cbn [fst snd].
  - rewrite alert_count_alert. unfold create_count.
    destruct (alert_notification_calls t b r
                (calls (playNotificationSound b ctx (sound_of t)).2) (id r))
      as (text & body & ->).
    apply sendNotification_creates.
  - by destruct (_ && _).
Qed.

Lemma forEach_creates (b : Browser) (now : Z) (rs : list Reminder)
    (played : gset string) (ctx : option AudioContext) :
  create_count (forEach b now rs played ctx).2 =
    if notification_supported b && bool_decide (permission b = Granted)
    then alert_count (forEach b now rs played ctx).2 else 0%nat.
Proof.
  revert played ctx. induction rs as [|r rs IH]; intros played ctx; simpl.
  - by destruct (_ && _).
  - pose proof (visit_creates b now played ctx r) as Hv.
    destruct (visit b now played ctx r) as [[[r' played1] ctx1] log1].
    specialize (IH played1 ctx1).
    destruct (forEach b now rs played1 ctx1) as [[[rs' played2] ctx2] log2].
    cbn [fst snd] in *. rewrite create_count_app, alert_count_app, Hv, IH.
    by destruct (_ && _).
Qed.

(** X8.  While permission is granted (and notifications are supported), every
    alert dispatched creates exactly one desktop notification and none asks
    for permission: over a session, as many notifications as alerts, and no
    request. *)
Theorem granted_permission_notifies_each_alert (ts : list Task) (st : State) :
  every_tick (fun b => notification_supported b = true ∧ permission b = Granted) ts →
  create_count (run ts st).2 = alert_count (run ts st).2 ∧
  request_count (run ts st).2 = 0%nat.
Proof.
  revert st. induction ts as [|task ts IH]; intros st Hall; simpl; [done|].
  assert (create_count (step task st).2 = alert_count (step task st).2 ∧
          request_count (step task st).2 = 0%nat) as [Hc Hr].
  { destruct task as [b now|resp|j]; simpl; [|done..].
    rewrite checkReminders_log, forEach_creates, forEach_requests.
    destruct (Hall b now) as [-> ->]; [left|]. done. }
  destruct (step task st) as [st1 log1].
  specialize (IH st1 (every_tick_cons _ _ _ Hall)) as [IHc IHr].
  destruct (run ts st1) as [st2 log2]. cbn [fst snd] in *.
  by rewrite create_count_app, alert_count_app, request_count_app, Hc, Hr, IHc, IHr.
Qed.

Lemma granted_permission_notifies_each_alert_witness :
  let ts := [Tick (browser Granted) 100000; Reload Failed;
             Tick (browser Granted) 300000] in
  create_count (run ts (initial [pill; walk])).2
  = alert_count (run ts (initial [pill; walk])).2 ∧
  request_count (run ts (initial [pill; walk])).2 = 0%nat.
Proof.
  apply (granted_permission_notifies_each_alert
           [Tick (browser Granted) 100000; Reload Failed;
            Tick (browser Granted) 300000] (initial [pill; walk])).
  intros b now H.
  repeat (apply elem_of_cons in H as [H|H];
          [try discriminate H; injection H as -> _; by split|]).
  by apply not_elem_of_nil in H.
Defined.

(** ** The audio context *)

Lemma audio_calls_app (l1 l2 : list Entry) :
  audio_calls (l1 ++ l2) = audio_calls l1 ++ audio_calls l2.
Proof. unfold audio_calls. apply flat_map_app. Qed.

Lemma synthesize_no_constructor (b : Browser) (ctx : option AudioContext)
    (type : string) :
  NewAudioContext ∉ calls (synthesize b ctx type).
Proof.
  unfold synthesize. destruct ctx as [c|]; [|by apply not_elem_of_nil].
  intros [Hin|Hin]%bind_calls_elem.
  - apply block_calls_sublist in Hin.
    repeat (apply elem_of_cons in Hin as [Hin|Hin]; [discriminate Hin|]).
    by apply not_elem_of_nil in Hin.
  - destruct (String.eqb type "urgent"); apply block_calls_sublist in Hin;
      unfold urgent_calls, chime_calls in Hin;
      repeat (apply elem_of_cons in Hin as [Hin|Hin]; [discriminate Hin|]);
      by apply not_elem_of_nil in Hin.
Qed.

Lemma fallback_no_constructor (b : Browser) :
  NewAudioContext ∉ calls (fallback b).
Proof.
  unfold fallback, console, call, bind, try_catch.
  destruct (audio_throws b 0%nat NewAudio), (audio_throws b 1%nat AudioPlay);
    cbn; intros Hin;
    repeat (apply elem_of_cons in Hin as [Hin|Hin]; [discriminate Hin|]);
    by apply not_elem_of_nil in Hin.
Qed.

(** With the context set, a sound keeps it and does not build another. *)
Lemma playNotificationSound_keeps_context (b : Browser) (c : AudioContext)
    (type : string) :
  (playNotificationSound b (Some c) type).1 = Some c ∧
  NewAudioContext ∉ calls (playNotificationSound b (Some c) type).2.
Proof.
  unfold playNotificationSound. cbn [fst snd]. split; [done|].
  pose proof (synthesize_no_constructor b (Some c) type) as Hs.
  pose proof (fallback_no_constructor b) as Hf.
  unfold calls, bind, try_catch in *.
  destruct (synthesize b (Some c) type) as [l [[]|]]; cbn [fst snd] in *.
  - intros [Hin|Hin]%elem_of_app; [|done].
    destruct (suspended c); cbn in Hin;
      repeat (apply elem_of_cons in Hin as [Hin|Hin]; [discriminate Hin|]);
      by apply not_elem_of_nil in Hin.
  - destruct (fallback b) as [l' o']. cbn [fst snd] in *.
    intros [Hin|[Hin|Hin]%elem_of_app]%elem_of_app; [|done..].
    destruct (suspended c); cbn in Hin;
      repeat (apply elem_of_cons in Hin as [Hin|Hin]; [discriminate Hin|]);
      by apply not_elem_of_nil in Hin.
Qed.

Lemma alert_audio_calls (t : Threshold) (b : Browser) (r : Reminder)
    (made : list AudioCall) (i : Z) :
  audio_calls (Build_Entry i t <$> alert_effects t b r made) = made.
Proof. destruct t; unfold audio_calls; simpl; by rewrite app_nil_r. Qed.

Lemma visit_keeps_context (b : Browser) (now : Z) (played : gset string)
    (c : AudioContext) (r : Reminder) :
  (visit b now played (Some c) r).1.2 = Some c ∧
  NewAudioContext ∉ audio_calls (visit b now played (Some c) r).2.
Proof.
  rewrite visit_unfold. destruct (taken now played r) as [t|]; cbn [fst snd].
  - rewrite alert_audio_calls. apply playNotificationSound_keeps_context.
  - split; [done | apply not_elem_of_nil].
Qed.

Lemma forEach_keeps_context (b : Browser) (now : Z) (rs : list Reminder)
    (played : gset string) (c : AudioContext) :
  (forEach b now rs played (Some c)).1.2 = Some c ∧
  NewAudioContext ∉ audio_calls (forEach b now rs played (Some c)).2.
Proof.
  revert played. induction rs as [|r rs IH]; intros played; simpl.
  - split; [done | apply not_elem_of_nil].
  - pose proof (visit_keeps_context b now played c r) as [Hc Hn].
    destruct (visit b now played (Some c) r) as [[[r' played1] ctx1] log1].
    cbn [fst snd] in *. subst ctx1.
    specialize (IH played1) as [IHc IHn].
    destruct (forEach b now rs played1 (Some c)) as [[[rs' played2] ctx2] log2].
    cbn [fst snd] in *. split; [done|].
    rewrite audio_calls_app. intros [?|?]%elem_of_app; auto.
Qed.

(** X9.  The audio context is built lazily and kept: once the global holds a
    context, no task of any session replaces it and no alert constructs
    another one. *)
Theorem audio_context_is_kept (ts : list Task) (st : State) (c : AudioContext) :
  audioContext st = Some c →
  audioContext (run ts st).1 = Some c ∧
  NewAudioContext ∉ audio_calls (run ts st).2.
Proof.
  revert st. induction ts as [|task ts IH]; intros st Hc; simpl.
  - split; [done | apply not_elem_of_nil].
  - assert (audioContext (step task st).1 = Some c ∧
            NewAudioContext ∉ audio_calls (step task st).2) as [Hc1 Hn1].
    { destruct task as [b now|resp|j]; simpl.
      - pose proof (forEach_keeps_context b now (reminders st)
                      (hasPlayedSound st) c) as Hf.
        unfold checkReminders. rewrite Hc.
        destruct (forEach b now (reminders st) (hasPlayedSound st) (Some c))
          as [[[rs played] ctx] log]. exact Hf.
      - split; [by destruct resp | apply not_elem_of_nil].
      - split; [done | apply not_elem_of_nil]. }
    destruct (step task st) as [st1 log1]. cbn [fst snd] in *.
    specialize (IH st1 Hc1) as [IHc IHn].
    destruct (run ts st1) as [st2 log2]. cbn [fst snd] in *. split; [done|].
    rewrite audio_calls_app. intros [?|?]%elem_of_app; auto.
Qed.

Lemma audio_context_is_kept_witness :
  let st := {| reminders := [pill]; hasPlayedSound := ∅;
               audioContext := Some {| suspended := true |} |} in
  let ts := [Tick (browser Granted) 100000; ClearKeys 1;
             Tick (browser Granted) 300000] in
  audioContext (run ts st).1 = Some {| suspended := true |} ∧
  NewAudioContext ∉ audio_calls (run ts st).2.
Proof.
  apply (audio_context_is_kept
           [Tick (browser Granted) 100000; ClearKeys 1; Tick (browser Granted) 300000]
           {| reminders := [pill]; hasPlayedSound := ∅;
              audioContext := Some {| suspended := true |} |}).
  reflexivity.
Defined.

(** * Rendering helpers *)

(** ** escapeHtml *)

Lemma string_app_cons (a : ascii) (s t : string) :
  String a s +:+ t = String a (s +:+ t).
Proof. reflexivity. Qed.

Lemma string_app_nil_l (t : string) : "" +:+ t = t.
Proof. reflexivity. Qed.

Lemma string_app_nil_r (s : string) : s +:+ "" = s.
Proof. induction s as [|a s IH]; [done|]. by rewrite string_app_cons, IH. Qed.

Lemma string_app_assoc (s t u : string) : (s +:+ t) +:+ u = s +:+ (t +:+ u).
Proof. induction s as [|a s IH]; [done|]. by rewrite !string_app_cons, IH. Qed.

(** The five replacements, one after the other. *)
Lemma escapeHtml_chain (s : string) :
  escapeHtml s =
  replace_all "'" "&#039;"
    (replace_all "034" "&quot;"
       (replace_all ">" "&gt;"
          (replace_all "<" "&lt;"
             (replace_all "&" "&amp;" s)))).
Proof. by destruct s. Qed.

Lemma escapeHtml_cons (a : ascii) (s : string) :
  escapeHtml (String a s) = escape_char a +:+ escapeHtml s.
Proof.
  rewrite !escapeHtml_chain.
  destruct a as [[] [] [] [] [] [] [] []]; reflexivity.
Qed.

Lemma escapeHtml_map_chars (s : string) :
  escapeHtml s = map_chars escape_char s.
Proof.
  induction s as [|a s IH]; [done|].
  by rewrite escapeHtml_cons, IH.
Qed.

Lemma map_chars_app (f : ascii → string) (s t : string) :
  map_chars f (s +:+ t) = map_chars f s +:+ map_chars f t.
Proof.
  induction s as [|a s IH]; [done|].
  rewrite string_app_cons. simpl. by rewrite IH, string_app_assoc.
Qed.

(** X10.  [escapeHtml] never escapes twice: the five replacements in a row
    give what escaping every character on its own gives, so the ampersands
    that the later replacements write are left alone; hence escaping a
    concatenation is concatenating the escapes. *)
Theorem escapeHtml_is_one_pass (s t : string) :
  escapeHtml s = map_chars escape_char s ∧
  escapeHtml (s +:+ t) = escapeHtml s +:+ escapeHtml t.
Proof.
  split; [apply escapeHtml_map_chars|].
  rewrite !escapeHtml_map_chars. apply map_chars_app.
Qed.

Lemma escape_char_clean (a : ascii) :
  forallb (fun c => negb (is_markup c)) (list_ascii_of_string (escape_char a)) = true.
Proof. destruct a as [[] [] [] [] [] [] [] []]; reflexivity. Qed.

(** X11.  The text [escapeHtml] returns holds no [<], no [>] and no quote of
    either kind: it cannot open or close a tag or an attribute value. *)
Theorem escapeHtml_leaves_no_markup (s : string) (c : ascii) :
  c ∈ list_ascii_of_string (escapeHtml s) → is_markup c = false.
Proof.
  rewrite escapeHtml_map_chars. induction s as [|a s IH]; simpl.
  - by intros ?%not_elem_of_nil.
  - rewrite list_ascii_of_string_app. intros [Hin|Hin]%elem_of_app; [|by apply IH].
    pose proof (escape_char_clean a) as Hc.
    rewrite forallb_forall in Hc. apply list_elem_of_In, Hc in Hin.
    by apply negb_true_iff.
Qed.

Lemma escapeHtml_leaves_no_markup_witness : is_markup "&" = false.
Proof.
  apply (escapeHtml_leaves_no_markup ("<b>" +:+ dquote +:+ "T&J's" +:+ dquote) "&").
  apply (bool_decide_unpack _). vm_compute. exact I.
Defined.

(** Every character is either kept or replaced by its entity. *)
Lemma escape_char_cases (a : ascii) :
  (escape_char a = String a "" ∧ a ≠ "&"%char) ∨
  (a = "&"%char ∧ escape_char a = "&amp;") ∨
  (a = "<"%char ∧ escape_char a = "&lt;") ∨
  (a = ">"%char ∧ escape_char a = "&gt;") ∨
  (a = "034"%char ∧ escape_char a = "&quot;") ∨
  (a = "'"%char ∧ escape_char a = "&#039;").
Proof.
  destruct a as [[] [] [] [] [] [] [] []];
    first [ left; split; [reflexivity | discriminate]
          | right; left; split; reflexivity
          | right; right; left; split; reflexivity
          | right; right; right; left; split; reflexivity
          | right; right; right; right; left; split; reflexivity
          | right; right; right; right; right; split; reflexivity ].
Qed.

Lemma escape_char_inj (a b : ascii) (x y : string) :
  escape_char a +:+ x = escape_char b +:+ y → a = b ∧ x = y.
Proof.
  intros H.
  destruct (escape_char_cases a) as [[Ha Hna]|[[-> Ha]|[[-> Ha]|[[-> Ha]|[[-> Ha]|[-> Ha]]]]]];
  destruct (escape_char_cases b) as [[Hb Hnb]|[[-> Hb]|[[-> Hb]|[[-> Hb]|[[-> Hb]|[-> Hb]]]]]];
    rewrite ?Ha, ?Hb in H; rewrite ?string_app_cons, ?string_app_nil_l in H;
    simplify_eq; done.
Qed.

(** X12.  [escapeHtml] loses nothing: two different texts never escape to the
    same text. *)
Theorem escapeHtml_injective (s t : string) :
  escapeHtml s = escapeHtml t → s = t.
Proof.
  rewrite !escapeHtml_map_chars. revert t.
  induction s as [|a s IH]; intros [|b t] H; simpl in H.
  - done.
  - exfalso. destruct (escape_char_cases b) as [[Hb _]|[[_ Hb]|[[_ Hb]|[[_ Hb]|[[_ Hb]|[_ Hb]]]]]];
      rewrite Hb in H; discriminate H.
  - exfalso. destruct (escape_char_cases a) as [[Ha _]|[[_ Ha]|[[_ Ha]|[[_ Ha]|[[_ Ha]|[_ Ha]]]]]];
      rewrite Ha in H; discriminate H.
  - apply escape_char_inj in H as [-> H]. f_equal. by apply IH.
Qed.

Lemma escapeHtml_injective_witness : "a<b" +:+ "" = "a" +:+ "<b".
Proof. apply (escapeHtml_injective ("a<b" +:+ "") ("a" +:+ "<b")). reflexivity. Defined.

(** ** Blood pressure *)

Lemma digits_prefix_spec (s : string) :
  s = (digits_prefix s).1 +:+ (digits_prefix s).2 ∧
  all_digits (digits_prefix s).1 = true ∧
  match (digits_prefix s).2 with
  | String a _ => is_digit a = false
  | EmptyString => True
  end.
Proof.
  induction s as [|a s IH]; [done|]. destruct IH as (IH1 & IH2 & IH3). simpl.
  destruct (is_digit a) eqn:Ea.
  - destruct (digits_prefix s) as [d rest]. cbn [fst snd] in *.
    split_and!; [by rewrite string_app_cons, <- IH1 | | done].
    unfold all_digits in *. simpl. by rewrite Ea, IH2.
  - cbn [fst snd]. by split_and!.
Qed.

Lemma digits_prefix_app (d rest : string) :
  all_digits d = true →
  match rest with String a _ => is_digit a = false | EmptyString => True end →
  digits_prefix (d +:+ rest) = (d, rest).
Proof.
  intros Hd Hrest. induction d as [|a d IH].
  - rewrite string_app_nil_l. destruct rest as [|a rest]; [done|].
    simpl. by rewrite Hrest.
  - unfold all_digits in *. simpl in Hd. apply andb_true_iff in Hd as [Ha Hd].
    rewrite string_app_cons. simpl. by rewrite Ha, (IH Hd).
Qed.

Lemma valid_pressure_shape (bp : string) :
  isValidBloodPressure bp = true ↔
  ∃ d1 d2, bp = d1 +:+ "/" +:+ d2 ∧
           all_digits d1 = true ∧ all_digits d2 = true ∧
           (2 ≤ String.length d1 ≤ 3)%nat ∧ (2 ≤ String.length d2 ≤ 3)%nat.
Proof.
  unfold isValidBloodPressure. split.
  - pose proof (digits_prefix_spec bp) as (H1 & H2 & _).
    destruct (digits_prefix bp) as [d1 rest]. cbn [fst snd] in *.
    intros [[Hlo Hhi]%andb_true_iff Hrest]%andb_true_iff.
    destruct rest as [|a rest']; [done|].
    apply andb_true_iff in Hrest as [Ha Hrest]. apply Ascii.eqb_eq in Ha. subst a.
    pose proof (digits_prefix_spec rest') as (H3 & H4 & _).
    destruct (digits_prefix rest') as [d2 tail]. cbn [fst snd] in *.
    apply andb_true_iff in Hrest as [Hlen2 Htail].
    apply andb_true_iff in Hlen2 as [Hlo2 Hhi2].
    apply String.eqb_eq in Htail. subst tail. rewrite string_app_nil_r in H3. subst rest'.
    exists d1, d2. apply Nat.leb_le in Hlo, Hhi, Hlo2, Hhi2. by split_and!.
  - intros (d1 & d2 & -> & Hd1 & Hd2 & [Hlo Hhi] & [Hlo2 Hhi2]).
    rewrite (digits_prefix_app d1 ("/" +:+ d2)) by done.
    rewrite string_app_cons, string_app_nil_l.
    rewrite <- (string_app_nil_r d2) at 1.
    rewrite (digits_prefix_app d2 "") by done.
    apply Nat.leb_le in Hlo, Hhi, Hlo2, Hhi2.
    by rewrite Hlo, Hhi, Hlo2, Hhi2.
Qed.

(** X13.  [isValidBloodPressure] accepts exactly the strings made of two or
    three digits, a slash, and two or three digits, and nothing around
    them. *)
Theorem isValidBloodPressure_accepts_exactly (bp : string) :
  isValidBloodPressure bp = true ↔
  ∃ d1 d2, bp = d1 +:+ "/" +:+ d2 ∧
           all_digits d1 = true ∧ all_digits d2 = true ∧
           (2 ≤ String.length d1 ≤ 3)%nat ∧ (2 ≤ String.length d2 ≤ 3)%nat.
Proof. apply valid_pressure_shape. Qed.

Lemma no_sep_split (sep : ascii) (s : string) :
  sep ∉ list_ascii_of_string s → js_split sep s = [s].
Proof.
  induction s as [|a s IH]; [done|]. simpl. intros Hn.
  destruct (Ascii.eqb_spec a sep) as [->|Hne].
  - exfalso. apply Hn. left.
  - rewrite IH; [done|]. intros Hin. apply Hn. by right.
Qed.

Lemma js_split_app (sep : ascii) (h rest : string) :
  sep ∉ list_ascii_of_string h →
  js_split sep (h +:+ String sep rest) = h :: js_split sep rest.
Proof.
  induction h as [|a h IH]; intros Hn.
  - rewrite string_app_nil_l. simpl. by rewrite Ascii.eqb_refl.
  - rewrite string_app_cons. simpl.
    destruct (Ascii.eqb_spec a sep) as [->|Hne].
    + exfalso. apply Hn. left.
    + rewrite IH; [done|]. intros Hin. apply Hn. by right.
Qed.

Lemma digits_no_sep (sep : ascii) (d : string) :
  is_digit sep = false → all_digits d = true → sep ∉ list_ascii_of_string d.
Proof.
  intros Hsep Hd Hin. unfold all_digits in Hd. rewrite forallb_forall in Hd.
  apply list_elem_of_In, Hd in Hin. congruence.
Qed.

Lemma num_lt_integer (z c : Z) :
  num_lt (Finite (inject_Z z)) (c # 1) = (z <? c).
Proof.
  unfold num_lt, Qle_bool, inject_Z. simpl. rewrite !Z.mul_1_r.
  by rewrite Z.ltb_antisym.
Qed.

Lemma num_gt_integer (z c : Z) :
  num_gt (Finite (inject_Z z)) (c # 1) = (c <? z).
Proof.
  unfold num_gt, Qle_bool, inject_Z. simpl. rewrite !Z.mul_1_r.
  by rewrite Z.ltb_antisym.
Qed.

Lemma digit_value_range (a : ascii) :
  is_digit a = true → 0 ≤ digit_value a ≤ 9.
Proof.
  unfold is_digit, digit_value.
  intros [H1%N.leb_le H2%N.leb_le]%andb_true_iff. lia.
Qed.

Lemma decimal_from_bounds (s : string) (acc : Z) :
  all_digits s = true → 0 ≤ acc →
  0 ≤ decimal_from acc s < (acc + 1) * 10 ^ Z.of_nat (String.length s).
Proof.
  revert acc. induction s as [|a s IH]; intros acc Hd Hacc; simpl.
  - lia.
  - unfold all_digits in Hd. simpl in Hd. apply andb_true_iff in Hd as [Ha Hd].
    pose proof (digit_value_range a Ha) as Hv.
    specialize (IH (10 * acc + digit_value a) Hd ltac:(lia)).
    rewrite Nat2Z.inj_succ, Z.pow_succ_r by lia.
    assert (0 < 10 ^ Z.of_nat (String.length s)) by (apply Z.pow_pos_nonneg; lia).
    nia.
Qed.

Lemma decimal_three_digits (d : string) :
  all_digits d = true → (String.length d ≤ 3)%nat → 0 ≤ decimal d ≤ 999.
Proof.
  intros Hd Hlen. pose proof (decimal_from_bounds d 0 Hd ltac:(lia)) as Hb.
  fold (decimal d) in Hb.
  assert (10 ^ Z.of_nat (String.length d) ≤ 10 ^ 3).
  { apply Z.pow_le_mono_r; lia. }
  lia.
Qed.

Lemma all_digits_nonempty (d : string) : (2 ≤ String.length d)%nat → d ≠ "".
Proof. destruct d; simpl; [lia | done]. Qed.

(** X14.  On a string that [isValidBloodPressure] accepts, [getBpStatus]
    reads two whole numbers between 0 and 999 and decides on them: low when
    the first is under 90 or the second under 60, else high when the first is
    over 140 or the second over 90, else normal. *)
Theorem validated_pressure_status (Number : string → Num) (bp : string) :
  reads_decimals Number →
  isValidBloodPressure bp = true →
  ∃ d1 d2, bp = d1 +:+ "/" +:+ d2 ∧
           0 ≤ decimal d1 ≤ 999 ∧ 0 ≤ decimal d2 ≤ 999 ∧
           getBpStatus Number bp =
             if (decimal d1 <? 90) || (decimal d2 <? 60) then "low"
             else if (140 <? decimal d1) || (90 <? decimal d2) then "high"
             else "normal".
Proof.
  intros Hnum (d1 & d2 & -> & Hd1 & Hd2 & [Hlo1 Hhi1] & [Hlo2 Hhi2])%valid_pressure_shape.
  exists d1, d2. split_and!; [done | by apply decimal_three_digits..|].
  unfold getBpStatus.
  rewrite string_app_cons, string_app_nil_l.
  rewrite js_split_app by (by apply digits_no_sep).
  rewrite no_sep_split by (by apply digits_no_sep).
  cbn [fmap list_fmap lookup list_lookup default].
  rewrite !Hnum by (done || by apply all_digits_nonempty).
  unfold Datatypes.id. by rewrite !num_lt_integer, !num_gt_integer.
Qed.

Lemma Number_of_digits_reads_decimals : reads_decimals Number_of_digits.
Proof. intros d _ Hd. unfold Number_of_digits. by rewrite Hd. Qed.

Lemma validated_pressure_status_witness :
  ∃ d1 d2, "150/95" = d1 +:+ "/" +:+ d2 ∧
           0 ≤ decimal d1 ≤ 999 ∧ 0 ≤ decimal d2 ≤ 999 ∧
           getBpStatus Number_of_digits "150/95" =
             if (decimal d1 <? 90) || (decimal d2 <? 60) then "low"
             else if (140 <? decimal d1) || (90 <? decimal d2) then "high"
             else "normal".
Proof.
  apply (validated_pressure_status Number_of_digits "150/95").
  - apply Number_of_digits_reads_decimals.
  - reflexivity.
Defined.

(** X15.  A blood pressure none of whose parts reads as a number is reported
    normal: [getBpStatus] never answers low or high on it. *)
Theorem unreadable_pressure_is_normal (Number : string → Num) (bp : string) :
  (∀ p, p ∈ js_split "/" bp → Number p = NaN) →
  getBpStatus Number bp = "normal".
Proof.
  intros Hnan. unfold getBpStatus.
  destruct (js_split "/" bp) as [|p0 [|p1 l]];
    cbn [fmap list_fmap lookup list_lookup default from_option]; unfold Datatypes.id.
  - done.
  - by rewrite (Hnan p0) by left.
  - by rewrite (Hnan p0), (Hnan p1) by (left || (right; left)).
Qed.

Lemma unreadable_pressure_is_normal_witness :
  getBpStatus Number_of_digits "n/a" = "normal".
Proof.
  apply (unreadable_pressure_is_normal Number_of_digits "n/a").
  intros p Hp. vm_compute in Hp.
  repeat (apply elem_of_cons in Hp as [->|Hp]; [reflexivity|]).
  by apply not_elem_of_nil in Hp.
Defined.

(** ** formatTime *)

Lemma twelve_hour_clock (h : Z) :
  0 ≤ h ≤ 23 →
  let d := if Z.rem h 12 =? 0 then 12 else Z.rem h 12 in
  1 ≤ d ≤ 12 ∧ h = d mod 12 + (if 12 <=? h then 12 else 0).
Proof.
  intros Hh.
  assert (h ∈ seqZ 0 24) as Hin by (apply elem_of_seqZ; lia).
  vm_compute in Hin.
  repeat (apply elem_of_cons in Hin as [->|Hin]; [vm_compute; intuition congruence|]).
  by apply not_elem_of_nil in Hin.
Qed.

Lemma js_split_head (sep : ascii) (s : string) :
  ∃ h t, js_split sep s = h :: t.
Proof.
  induction s as [|a s (h & t & IH)]; [by exists "", []|]. simpl.
  destruct (Ascii.eqb a sep); [by eexists _, _|].
  rewrite IH. by eexists _, _.
Qed.

(** X16.  On a time whose part before the first colon reads as an hour from 0
    to 23, [formatTime] prints the twelve-hour clock: an hour from 1 to 12,
    the minutes as they were written, and AM below noon, PM from noon on;
    the twenty-four-hour hour can be read back from what is printed. *)
Theorem formatTime_twelve_hour (parseInt : string → option Z)
    (hours rest : string) (h : Z) :
  ":"%char ∉ list_ascii_of_string hours →
  parseInt hours = Some h → 0 ≤ h ≤ 23 →
  ∃ d minutes others,
    js_split ":" rest = minutes :: others ∧
    formatTime parseInt (hours +:+ ":" +:+ rest) =
      pretty d +:+ ":" +:+ minutes +:+ " " +:+ (if 12 <=? h then "PM" else "AM") ∧
    1 ≤ d ≤ 12 ∧
    h = d mod 12 + (if 12 <=? h then 12 else 0).
Proof.
  intros Hcolon Hparse Hh.
  destruct (js_split_head ":" rest) as (minutes & others & Hrest).
  exists (if Z.rem h 12 =? 0 then 12 else Z.rem h 12), minutes, others.
  split; [done|]. split; [|by apply twelve_hour_clock].
  unfold formatTime. rewrite string_app_cons, string_app_nil_l.
  rewrite js_split_app, Hrest by done.
  cbn [lookup list_lookup default from_option]. unfold Datatypes.id.
  by rewrite Hparse.
Qed.

Lemma formatTime_twelve_hour_witness :
  ∃ d minutes others,
    js_split ":" "45:00" = minutes :: others ∧
    formatTime parseInt_of_digits ("13" +:+ ":" +:+ "45:00") =
      pretty d +:+ ":" +:+ minutes +:+ " " +:+ (if 12 <=? 13 then "PM" else "AM") ∧
    1 ≤ d ≤ 12 ∧
    13 = d mod 12 + (if 12 <=? 13 then 12 else 0).
Proof.
  apply (formatTime_twelve_hour parseInt_of_digits "13" "45:00" 13).
  - apply (bool_decide_unpack _). vm_compute. exact I.
  - reflexivity.
  - lia.
Defined.

(** ** addReminder *)

Lemma addReminder_refused (DateOf : string → option Z)
    (text dateTime memo : string) (now : Z) (posted : Posted)
    (reload : Response (list Reminder)) (st : State) :
  String.eqb text "" || String.eqb dateTime "" || js_le (DateOf dateTime) now = true →
  ∃ message,
    addReminder DateOf text dateTime memo now posted reload st
    = (st, [Toast message "warning"]).
Proof.
  unfold addReminder. intros H.
  destruct (String.eqb text "" || String.eqb dateTime ""); [by eexists|].
  rewrite orb_false_l in H. rewrite H. by eexists.
Qed.

Lemma addReminder_sent (DateOf : string → option Z)
    (text dateTime memo : string) (now : Z) (posted : Posted)
    (reload : Response (list Reminder)) (st : State) :
  String.eqb text "" || String.eqb dateTime "" || js_le (DateOf dateTime) now = false →
  ∃ rest,
    (addReminder DateOf text dateTime memo now posted reload st).2
    = PostReminder text dateTime (if String.eqb memo "" then None else Some memo)
      :: rest ∧
    forallb (fun u => negb (is_post u)) rest = true ∧
    hasPlayedSound (addReminder DateOf text dateTime memo now posted reload st).1
    = hasPlayedSound st ∧
    (posted ≠ PostOk →
     (addReminder DateOf text dateTime memo now posted reload st).1 = st).
Proof.
  unfold addReminder. intros H.
  apply orb_false_iff in H as [-> ->].
  destruct posted; cbn [fst snd]; eexists; (split; [reflexivity|]).
  - by split_and!.
  - by split_and!.
  - split_and!; [by destruct reload | by destruct reload | done].
Qed.

Lemma no_post_filter (l : list Ui) :
  forallb (fun u => negb (is_post u)) l = true →
  filter (fun u => is_post u = true) l = [].
Proof.
  induction l as [|u l IH]; [done|]. cbn [forallb].
  intros [Hu Hl]%andb_true_iff. rewrite filter_cons.
  destruct (decide (is_post u = true)) as [Hp|_]; [by rewrite Hp in Hu | auto].
Qed.

(** X17.  [addReminder] sends at most one request, and only for a form with
    a title and a date whose time, when it parses, is strictly after the
    clock: a reminder accepted at [now] is not yet in the window of its
    DueAlert, so a tick at that instant does not dispatch it.  A form that is
    refused, or a request that fails, leaves the cache as it was, and the set
    of played keys is never touched. *)
Theorem addReminder_accepts_only_future (DateOf : string → option Z)
    (text dateTime memo : string) (now : Z) (posted : Posted)
    (reload : Response (list Reminder)) (st : State) :
  let result := addReminder DateOf text dateTime memo now posted reload st in
  (length (filter (fun u => is_post u = true) result.2) ≤ 1)%nat ∧
  (∀ u, u ∈ result.2 → is_post u = true →
     u = PostReminder text dateTime (if String.eqb memo "" then None else Some memo) ∧
     text ≠ "" ∧ dateTime ≠ "" ∧
     (∀ T, DateOf dateTime = Some T → now < T) ∧
     (∀ r played, date_time r = DateOf dateTime →
                  taken now played r ≠ Some DueAlert)) ∧
  hasPlayedSound result.1 = hasPlayedSound st ∧
  ((posted ≠ PostOk ∨ ∀ u, u ∈ result.2 → is_post u = false) → result.1 = st).
Proof.
  intros result. unfold result.
  destruct (String.eqb text "" || String.eqb dateTime ""
            || js_le (DateOf dateTime) now) eqn:Hguard.
  - destruct (addReminder_refused DateOf text dateTime memo now posted reload st Hguard)
      as [message ->]. cbn [fst snd]. split_and!; [| | done | done].
    { rewrite filter_cons. cbn [is_post]. rewrite decide_False by done.
      cbn. lia. }
    intros u Hu%list_elem_of_singleton Hp. by subst u.
  - destruct (addReminder_sent DateOf text dateTime memo now posted reload st Hguard)
      as (rest & -> & Hrest & Hplayed & Hfail).
    apply orb_false_iff in Hguard as [[Htext Hdate]%orb_false_iff Hle].
    apply String.eqb_neq in Htext, Hdate.
    assert (∀ T, DateOf dateTime = Some T → now < T) as Hfuture.
    { intros T HT. rewrite HT in Hle. simpl in Hle. by apply Z.leb_gt in Hle. }
    split_and!; [| |done|].
    + rewrite filter_cons. cbn [is_post]. rewrite decide_True by done.
      by rewrite (no_post_filter rest Hrest).
    + intros u [->|Hu]%elem_of_cons Hp.
      * split_and!; [done..|].
        intros r played Hr [Ht _]%taken_iff.
        destruct (DateOf dateTime) as [T|] eqn:HT.
        -- change (in_due_test now r = true) in Ht.
           apply (in_due_test_spec now r T Hr) in Ht.
           specialize (Hfuture T eq_refl). lia.
        -- pose proof (in_test_invalid DueAlert now r Hr). congruence.
      * rewrite forallb_forall in Hrest.
        apply list_elem_of_In, Hrest in Hu. by rewrite Hp in Hu.
    + intros [Hne|Hnone]; [by apply Hfail|].
      specialize (Hnone _ (list_elem_of_here _ _)). done.
Qed.

(** * The set of played keys *)

(** X18.  Deleting a reminder touches the keys of no other reminder: the
    keys built from a different id are different strings, so they are in the
    set after [deleteReminder] exactly when they were before, whatever the
    answers to the confirmation and to the two requests. *)
Theorem deleteReminder_spares_other_keys (confirmed : bool)
    (deleted : Response unit) (reload : Response (list Reminder))
    (i j : Z) (t : Threshold) (st : State) :
  i ≠ j →
  key j t ∈ hasPlayedSound (deleteReminder confirmed deleted reload i st) ↔
  key j t ∈ hasPlayedSound st.
Proof.
  intros Hne. unfold deleteReminder.
  destruct confirmed; cbn [negb]; [|done].
  destruct deleted as [| |[]]; [done..|].
  assert (hasPlayedSound (loadReminders reload (clearKeys i st))
          = hasPlayedSound (clearKeys i st)) as -> by (by destruct reload).
  unfold clearKeys. cbn [hasPlayedSound].
  rewrite !elem_of_difference, !elem_of_singleton.
  split; [tauto|]. intros Hin.
  split_and!; [done|..]; intros [Heq _]%key_inj; by apply Hne.
Qed.

Lemma deleteReminder_spares_other_keys_witness :
  let st := {| reminders := [pill; walk];
               hasPlayedSound := {[ key 1 PreAlert; key 11 PreAlert ]};
               audioContext := None |} in
  key 11 PreAlert ∈ hasPlayedSound (deleteReminder true (Ok tt) Failed 1 st) ↔
  key 11 PreAlert ∈ hasPlayedSound st.
Proof.
  apply (deleteReminder_spares_other_keys true (Ok tt) Failed 1 11 PreAlert
           {| reminders := [pill; walk];
              hasPlayedSound := {[ key 1 PreAlert; key 11 PreAlert ]};
              audioContext := None |}).
  lia.
Defined.

Lemma visit_new_keys (b : Browser) (now : Z) (played : gset string)
    (ctx : option AudioContext) (r : Reminder) (k : string) :
  k ∈ (visit b now played ctx r).1.1.2 →
  k ∈ played ∨ ∃ t, k = key (id r) t.
Proof.
  rewrite visit_unfold. destruct (taken now played r) as [t|]; cbn [fst snd].
  - rewrite elem_of_union, elem_of_singleton. intros [->|?]; [right; by exists t | by left].
  - by left.
Qed.

Lemma forEach_new_keys (b : Browser) (now : Z) (rs : list Reminder)
    (played : gset string) (ctx : option AudioContext) (k : string) :
  k ∈ (forEach b now rs played ctx).1.1.2 →
  k ∈ played ∨ ∃ r t, r ∈ rs ∧ k = key (id r) t.
Proof.
  revert played ctx. induction rs as [|r rs IH]; intros played ctx; simpl.
  - by left.
  - pose proof (visit_new_keys b now played ctx r k) as Hv.
    destruct (visit b now played ctx r) as [[[r' played1] ctx1] log1].
    specialize (IH played1 ctx1).
    destruct (forEach b now rs played1 ctx1) as [[[rs' played2] ctx2] log2].
    cbn [fst snd] in *. intros Hk. destruct (IH Hk) as [Hin|(x & t & Hx & ->)].
    + destruct (Hv Hin) as [?|[t ->]]; [by left|].
      right. exists r, t. split; [left | done].
    + right. exists x, t. split; [by right | done].
Qed.

(** X19.  Ticks only add to the set of played keys, and only keys of cached
    reminders: after a session of ticks every key that was in the set is
    still there, and every key that is there was there before or is the key
    of a reminder of the cache. *)
Theorem ticks_only_add_cached_keys (sess : list (Browser * Z)) (st : State) :
  hasPlayedSound st ⊆ hasPlayedSound (run (ticks sess) st).1 ∧
  ∀ k, k ∈ hasPlayedSound (run (ticks sess) st).1 →
       k ∈ hasPlayedSound st ∨ ∃ i t, i ∈ id <$> reminders st ∧ k = key i t.
Proof.
  revert st. induction sess as [|[b now] sess IH]; intros st.
  - split; [done | by left].
  - rewrite run_ticks_cons. cbn [fst].
    destruct (IH (checkReminders b now st).1) as [IHsub IHnew].
    pose proof (forEach_played_mono b now (reminders st) (hasPlayedSound st)
                  (audioContext st)) as Hmono.
    rewrite <- checkReminders_played in Hmono. split; [by etrans|].
    intros k [Hk|(i & t & Hi & ->)]%IHnew.
    + rewrite checkReminders_played in Hk.
      apply forEach_new_keys in Hk as [?|(r & t & Hr & ->)]; [by left|].
      right. exists (id r), t. split; [by apply list_elem_of_fmap_2 | done].
    + right. exists i, t. split; [|done].
      by rewrite checkReminders_cache, forEach_ids in Hi.
Qed.
